(** * Funclip: transcript fusion and subtitle interchange

    A shallow embedding of the subtitle processor
    ([src/processors/subtitle_processor.py]) and of the speaker matcher
    ([src/models/speaker_model.py]), with the properties the specification
    states about them.

    Conventions of the embedding.
    - A Python [str] is a list of characters.  Characters are the code points
      below 256; on that range [str.isspace] and the [\s] class of [re]
      agree, and [\d] and [int] accept the digits ['0'..'9'] only.
    - A Python number holding a time offset in seconds is an exact rational
      ([Q]): comparison, subtraction, [min] and [max] are the exact ones.
    - A sentence dict is a record; the key ["speaker"], which every reader
      fetches through [.get("speaker", "")], is a string that is empty when
      the key is absent.
    - Exceptions are values of [exn] threaded through a sum type. *)

From Stdlib Require Import ZArith QArith Qround Qminmax Lqa Lia Ascii String.
From stdpp Require Import gmap strings list fin_maps sorting.

Local Open Scope Z_scope.

(** ** Python strings *)

Module Py.

Definition str := list ascii.

(** A literal: [lit "abc"] is the Python string ['abc']. *)
Definition lit (s : string) : str := list_ascii_of_string s.

Definition code (c : ascii) : Z := Z.of_N (N_of_ascii c).

Definition nl : ascii := ascii_of_N 10.

(** [str.isspace] on one character, which is also the class [\s]. *)
Definition isspace (c : ascii) : bool :=
  let n := code c in
  ((9 <=? n) && (n <=? 13)) || ((28 <=? n) && (n <=? 32))
  || (n =? 133) || (n =? 160).

(** The class [\d]. *)
Definition isdigit (c : ascii) : bool :=
  let n := code c in (48 <=? n) && (n <=? 57).

Definition digit_val (c : ascii) : Z := code c - 48.

Definition digit_char (d : Z) : ascii := ascii_of_N (Z.to_N (d + 48)).

Definition eqc (a b : ascii) : bool := Ascii.eqb a b.

Fixpoint lstrip (s : str) : str :=
  match s with
  | c :: r => if isspace c then lstrip r else s
  | [] => []
  end.

Fixpoint rstrip (s : str) : str :=
  match s with
  | c :: r =>
      match rstrip r with
      | [] => if isspace c then [] else [c]
      | r' => c :: r'
      end
  | [] => []
  end.

(** [s.strip()] *)
Definition strip (s : str) : str := rstrip (lstrip s).

(** [s.split(sep)] for a one-character separator: never an empty list. *)
Fixpoint split (sep : ascii) (s : str) : list str :=
  match s with
  | [] => [[]]
  | c :: r =>
      if eqc c sep then [] :: split sep r
      else match split sep r with
           | h :: t => (c :: h) :: t
           | [] => [[c]]
           end
  end.

(** [sep.join(l)] *)
Fixpoint join (sep : str) (l : list str) : str :=
  match l with
  | [] => []
  | [x] => x
  | x :: r => x ++ sep ++ join sep r
  end.

(** Decimal digits of a non-negative integer, most significant first. *)
Fixpoint digits_fuel (fuel : nat) (n : Z) (acc : str) : str :=
  match fuel with
  | O => acc
  | S f =>
      let acc' := digit_char (n mod 10) :: acc in
      if n <? 10 then acc' else digits_fuel f (n / 10) acc'
  end.

Definition digits (n : Z) : str := digits_fuel (S (Z.to_nat (Z.log2 n))) n [].

Definition minus_sign : ascii := ascii_of_N 45.
Definition plus_sign : ascii := ascii_of_N 43.
Definition underscore : ascii := ascii_of_N 95.
Definition zero_char : ascii := ascii_of_N 48.

(** [str(n)] and [f"{n}"] for an integer. *)
Definition str_of_int (n : Z) : str :=
  if n <? 0 then minus_sign :: digits (- n) else digits n.

(** [f"{n:0wd}"]: sign first, then zeros up to the width [w]. *)
Definition format_0d (w : nat) (n : Z) : str :=
  if n <? 0
  then minus_sign :: replicate (w - 1 - length (digits (- n))) zero_char ++ digits (- n)
  else replicate (w - length (digits n)) zero_char ++ digits n.

Definition Z_of_digits (s : str) : Z :=
  fold_left (fun a c => 10 * a + digit_val c) s 0.

(** The digit part of an integer literal: digits, with single underscores
    allowed between two digits. [prev] tells whether the previous character
    was a digit. *)
Fixpoint int_body (prev : bool) (s : str) : option str :=
  match s with
  | [] => if prev then Some [] else None
  | c :: r =>
      if isdigit c then option_map (cons c) (int_body true r)
      else if eqc c underscore && prev then int_body false r
      else None
  end.

(** [int(s)]: surrounding whitespace, an optional sign, the digit part.
    [None] is the [ValueError]. *)
Definition int (s : str) : option Z :=
  match strip s with
  | c :: r =>
      if eqc c minus_sign then option_map Z.opp (option_map Z_of_digits (int_body false r))
      else if eqc c plus_sign then option_map Z_of_digits (int_body false r)
      else option_map Z_of_digits (int_body false (c :: r))
  | [] => None
  end.

End Py.

Import Py.

(** ** Exceptions and results *)

Inductive exn : Type :=
  | ValueError
  | IndexError
  | KeyError
  | ProcessingError.

(** A computation that returns a value or raises. *)
Inductive result (A : Type) : Type :=
  | Ok (a : A)
  | Raise (e : exn).
Arguments Ok {A} a.
Arguments Raise {A} e.

(** Sequencing: an exception raised by the first part skips the rest. *)
Global Instance result_bind : MBind result := fun A B k m =>
  match m with
  | Ok a => k a
  | Raise e => Raise e
  end.
Global Instance result_ret : MRet result := @Ok.

(** [try: m except (ValueError, IndexError): h] *)
Definition try_except {A} (m : result A) (h : result A) : result A :=
  match m with
  | Raise ValueError | Raise IndexError => h
  | other => other
  end.

(** [l[i]] *)
Definition getitem {A} (l : list A) (i : nat) : result A :=
  match l !! i with
  | Some x => Ok x
  | None => Raise IndexError
  end.

(** ** Data model *)

(** A sentence dict.  [index] and [duration] are the keys that only
    [_parse_srt_content] writes. *)
Record Sentence : Type := {
  start_time : Q;
  end_time : Q;
  text : str;
  speaker : str;
  index : option Z;
  duration : option Q
}.

(** A sentence as the speech recogniser delivers it. *)
Definition utterance (s e : Q) (t spk : str) : Sentence :=
  {| start_time := s; end_time := e; text := t; speaker := spk;
     index := None; duration := None |}.

(** [sentence["speaker"] = spk] *)
Definition set_speaker (s : Sentence) (spk : str) : Sentence :=
  {| start_time := start_time s; end_time := end_time s; text := text s;
     speaker := spk; index := index s; duration := duration s |}.

(** One entry of a speaker's segment list. *)
Module Seg.
Record t : Type := {
  start_time : Q;
  end_time : Q;
  duration : Q
}.
Definition make (s e : Q) : t :=
  {| start_time := s; end_time := e; duration := e - s |}.
End Seg.

(** [speaker_segments]: a dict from speaker id to segment list.  A Python
    dict iterates in insertion order, so it is a list of items. *)
Definition speaker_segments : Type := list (str * list Seg.t).

(** ** Time model *)

(** Modelled from the spec: [_srt_time_to_seconds] is called by the parser
    but its body is not in the sources.  Section 4.1: the fixed format
    [HH:MM:SS,mmm]; fails when the pattern does not match exactly or when
    minutes or seconds exceed 59.  The failure (the FormatError of section
    7, fatal to the offending block only) is raised as the [ValueError] the
    handler of [_parse_srt_content] catches. *)
Definition _srt_time_to_seconds (s : str) : result Q :=
  match s with
  | [h1; h2; c1; m1; m2; c2; s1; s2; c3; k1; k2; k3] =>
      if forallb isdigit [h1; h2; m1; m2; s1; s2; k1; k2; k3]
         && eqc c1 ":" && eqc c2 ":" && eqc c3 ","
      then
        let h := Z_of_digits [h1; h2] in
        let m := Z_of_digits [m1; m2] in
        let sec := Z_of_digits [s1; s2] in
        let ms := Z_of_digits [k1; k2; k3] in
        if (m <=? 59) && (sec <=? 59)
        then Ok (inject_Z (h * 3600 + m * 60 + sec) + inject_Z ms / 1000)%Q
        else Raise ValueError
      else Raise ValueError
  | _ => Raise ValueError
  end.

(** Modelled from the spec: [_seconds_to_srt_time] is called by the
    serializer but its body is not in the sources.  Sections 3 and 4.1: the
    offset is truncated to milliseconds; hours are zero-padded to at least
    two digits, minutes and seconds to two, milliseconds to three. *)
Definition _seconds_to_srt_time (t : Q) : str :=
  let total := Qfloor (t * 1000) in
  let ms := total mod 1000 in
  let secs := total / 1000 in
  format_0d 2 (secs / 3600) ++ lit ":" ++ format_0d 2 (secs / 60 mod 60)
  ++ lit ":" ++ format_0d 2 (secs mod 60) ++ lit "," ++ format_0d 3 ms.

(** ** Subtitle processor *)

Definition cons_head (c : ascii) (l : list str) : list str :=
  match l with
  | h :: t => (c :: h) :: t
  | [] => [[c]]
  end.

(** The greedy match of [\s*\n] at the start of [r]: the number of
    characters up to and including the last newline of the leading
    whitespace run. *)
Fixpoint sep_tail (r : str) : option nat :=
  match r with
  | c :: r' =>
      if isspace c then
        match sep_tail r' with
        | Some n => Some (S n)
        | None => if eqc c nl then Some 1%nat else None
        end
      else None
  | [] => None
  end.

(** [re.split] on the blank-line pattern (a newline, any whitespace, a
    newline) of line 127: the pieces between the leftmost matches.
    [skip] counts the characters of the current match still to drop. *)
Fixpoint re_split (skip : nat) (s : str) : list str :=
  match s with
  | [] => [[]]
  | c :: r =>
      match skip with
      | S k => re_split k r
      | O =>
          if eqc c nl then
            match sep_tail r with
            | Some n => [] :: re_split n r
            | None => cons_head c (re_split 0 r)
            end
          else cons_head c (re_split 0 r)
      end
  end.

(** The longest prefix of characters satisfying [p], and what follows. *)
Fixpoint span (p : ascii -> bool) (s : str) : str * str :=
  match s with
  | c :: r => if p c then let '(a, b) := span p r in (c :: a, b) else ([], s)
  | [] => ([], [])
  end.

(** The pattern [\d{2}:\d{2}:\d{2},\d{3}] against a whole string. *)
Definition is_timestamp (s : str) : bool :=
  match s with
  | [h1; h2; c1; m1; m2; c2; s1; s2; c3; k1; k2; k3] =>
      forallb isdigit [h1; h2; m1; m2; s1; s2; k1; k2; k3]
      && eqc c1 ":" && eqc c2 ":" && eqc c3 ","
  | _ => false
  end.

Definition str_eqb (a b : str) : bool := bool_decide (a = b).

(** [re.match(r'(\d{2}:\d{2}:\d{2},\d{3}) --> (\d{2}:\d{2}:\d{2},\d{3})', l)]:
    anchored at the start only; the two groups. *)
Definition time_match (l : str) : option (str * str) :=
  let g1 := take 12 l in
  let arrow := take 5 (drop 12 l) in
  let g2 := take 12 (drop 17 l) in
  if is_timestamp g1 && str_eqb arrow (lit " --> ") && is_timestamp g2
  then Some (g1, g2) else None.

(** The speaker pattern of line 151 matched at the start of [t]: an opening
    bracket, group 1 of one or more characters other than a closing
    bracket, the closing bracket, any whitespace, and group 2 of the
    characters up to the next newline (the dot does not match a newline). *)
Definition speaker_match (t : str) : option (str * str) :=
  match t with
  | c :: r =>
      if eqc c "[" then
        match span (fun x => negb (eqc x "]")) r with
        | ((_ :: _) as name, _ :: rest) =>
            Some (name, fst (span (fun x => negb (eqc x nl)) (lstrip rest)))
        | _ => None
        end
      else None
  | [] => None
  end.

(** The body of the [for block in blocks] loop of [_parse_srt_content]:
    [Ok None] is a [continue], [Ok (Some s)] the dict appended. *)
Definition parse_block (block : str) : result (option Sentence) :=
  let lines := split nl (strip block) in
  if (length lines <? 3)%nat then Ok None
  else
    try_except
      (l0 ← getitem lines 0;
       idx ← match int l0 with Some i => Ok i | None => Raise ValueError end;
       l1 ← getitem lines 1;
       match time_match l1 with
       | None => Ok None
       | Some (g1, g2) =>
           start ← _srt_time_to_seconds g1;
           stop ← _srt_time_to_seconds g2;
           let text0 := join [nl] (drop 2 lines) in
           let '(spk, txt) :=
             match speaker_match text0 with
             | Some (s, t) => (s, t)
             | None => ([], text0)
             end in
           Ok (Some {| start_time := start; end_time := stop; text := txt;
                       speaker := spk; index := Some idx;
                       duration := Some (stop - start)%Q |})
       end)
      (Ok None).

Fixpoint parse_blocks (blocks : list str) (sentences : list Sentence)
  : result (list Sentence) :=
  match blocks with
  | [] => Ok sentences
  | block :: rest =>
      r ← parse_block block;
      parse_blocks rest
        (match r with Some s => sentences ++ [s] | None => sentences end)
  end.

Definition _parse_srt_content (content : str) : result (list Sentence) :=
  parse_blocks (re_split 0 (strip content)) [].

(** [parse_srt_file], from the text read from the file on: the [data] of
    its result. *)
Record ParseData : Type := {
  pd_sentences : list Sentence;
  total_count : nat
}.

(** The [error] text of a failed [ProcessingResult], by the line that
    builds it. *)
Inductive ErrorMsg : Type :=
  | MissingOutputPath      (* generate_srt, line 45 *)
  | WriteFailed            (* generate_srt, line 92, from lines 75-76 *)
  | ParseFailed (e : exn)  (* parse_srt_file, line 119 *)
  | MissingTargetSpeakers. (* filter_by_speaker, line 178 *)

(** [core.base.ProcessingResult]: [success], [data] and [error]; the
    payload type of [data] is a parameter, and [file_path] and [metadata],
    which carry no transcript data, are left out. *)
Record ProcessingResult (A : Type) : Type := {
  success : bool;
  data : option A;
  error : option ErrorMsg
}.
Arguments success {A} _.
Arguments data {A} _.
Arguments error {A} _.

Definition succeed {A} (a : A) : ProcessingResult A :=
  {| success := true; data := Some a; error := None |}.
Definition fail {A} (m : ErrorMsg) : ProcessingResult A :=
  {| success := false; data := None; error := Some m |}.

Definition parse_srt_file (content : str) : ProcessingResult ParseData :=
  match _parse_srt_content content with
  | Ok sentences =>
      succeed {| pd_sentences := sentences; total_count := length sentences |}
  | Raise e => fail (ParseFailed e)
  end.

(** The [for i, sentence in enumerate(sentences, 1)] loop of
    [generate_srt]: [i] is the running index, [srt_content] the list of
    lines built so far. *)
Fixpoint srt_loop (include_speaker : bool) (i : Z) (sentences : list Sentence)
    (srt_content : list str) : list str :=
  match sentences with
  | [] => srt_content
  | sentence :: rest =>
      let text := strip (text sentence) in
      let speaker := speaker sentence in
      match text with
      | [] => srt_loop include_speaker (i + 1) rest srt_content
      | _ =>
          let start_srt := _seconds_to_srt_time (start_time sentence) in
          let end_srt := _seconds_to_srt_time (end_time sentence) in
          let text :=
            match speaker with
            | _ :: _ =>
                if include_speaker
                then lit "[" ++ speaker ++ lit "] " ++ text
                else text
            | [] => text
            end in
          srt_loop include_speaker (i + 1) rest
            (srt_content
             ++ [str_of_int i; start_srt ++ lit " --> " ++ end_srt; text; []])
      end
  end.

(** The text [generate_srt] writes to the output file. *)
Definition srt_text (sentences : list Sentence) (include_speaker : bool) : str :=
  join [nl] (srt_loop include_speaker 1 sentences []).

Record SrtData : Type := {
  srt_path : str;
  subtitle_count : nat;
  total_duration : Q
}.

(** [generate_srt]: the result and the text written in full to the file,
    if any.  The file system is a parameter: [write path text] tells
    whether line 47 resolves [path] and lines 75-76 open the file and write
    [text] to it without raising; when one of them raises, the handler of
    lines 89-93 returns a failure, as it does for the missing path of line
    45.  [srt_path] is the path as given, which the code stores resolved. *)
Definition generate_srt (write : str -> str -> bool)
    (sentences : list Sentence) (output_path : option str)
    (include_speaker : bool) : ProcessingResult SrtData * option str :=
  match output_path with
  | None | Some [] => (fail MissingOutputPath, None)
  | Some path =>
      let srt_content := srt_text sentences include_speaker in
      if write path srt_content
      then
        (succeed {| srt_path := path;
                    subtitle_count := length sentences;
                    total_duration := match last sentences with
                                      | Some s => end_time s
                                      | None => 0%Q
                                      end |},
         Some srt_content)
      else (fail WriteFailed, None)
  end.

Record FilterData : Type := {
  fd_sentences : list Sentence;
  original_count : nat;
  filtered_count : nat;
  target_speakers : gset str
}.

(** The [for sentence in sentences] loop of [filter_by_speaker]. *)
Fixpoint filter_loop (target : gset str) (sentences : list Sentence)
    (filtered_sentences : list Sentence) : list Sentence :=
  match sentences with
  | [] => filtered_sentences
  | sentence :: rest =>
      if bool_decide (speaker sentence ∈ target)
      then filter_loop target rest (filtered_sentences ++ [sentence])
      else filter_loop target rest filtered_sentences
  end.

Definition filter_by_speaker (sentences : list Sentence) (speakers : gset str)
  : ProcessingResult FilterData :=
  if bool_decide (speakers = ∅) then fail MissingTargetSpeakers
  else
    let filtered := filter_loop speakers sentences [] in
    succeed {| fd_sentences := filtered;
               original_count := length sentences;
               filtered_count := length filtered;
               target_speakers := speakers |}.

(** Modelled from the spec: the body of [merge_segments] is cut off in the
    sources after the first test of its loop; only the defaults of
    [max_gap] and [max_duration], the empty [merged_segments] and the
    [current_segment] that starts as [None] are there.  Section 3: a span
    that ends where it starts is degenerate; every transform drops it and
    no cue of zero duration is emitted. *)
Definition degenerate (s : Sentence) : bool :=
  Qeq_bool (end_time s) (start_time s).

(** Modelled from the spec: section 4.4, an utterance joins the open cue
    iff the speakers agree, the gap is at most [max_gap] and the span of
    the merged cue at most [max_duration]. *)
Definition can_merge (max_gap max_duration : Q) (acc u : Sentence) : bool :=
  str_eqb (speaker u) (speaker acc)
  && Qle_bool (start_time u - end_time acc) max_gap
  && Qle_bool (end_time u - start_time acc) max_duration.

(** Modelled from the spec: section 4.4, merging joins the texts with one
    space and extends the end. *)
Definition absorb (acc u : Sentence) : Sentence :=
  {| start_time := start_time acc; end_time := end_time u;
     text := text acc ++ lit " " ++ text u; speaker := speaker acc;
     index := index acc; duration := duration acc |}.

(** Modelled from the spec: closing the open cue emits it (section 4.4),
    unless it has zero duration (section 3). *)
Definition emit (merged_segments : list Sentence) (cur : Sentence)
  : list Sentence :=
  if degenerate cur then merged_segments else merged_segments ++ [cur].

(** Modelled from the spec: the single pass of section 4.4 over the loop
    header and the first test that the sources show.  An utterance of zero
    duration is dropped (section 3): it opens no cue, joins none and closes
    none. *)
Fixpoint merge_loop (max_gap max_duration : Q) (sentences : list Sentence)
    (merged_segments : list Sentence) (current_segment : option Sentence)
  : list Sentence :=
  match sentences with
  | [] =>
      match current_segment with
      | Some cur => emit merged_segments cur
      | None => merged_segments
      end
  | sentence :: rest =>
      match current_segment with
      | None =>
          if degenerate sentence
          then merge_loop max_gap max_duration rest merged_segments None
          else merge_loop max_gap max_duration rest merged_segments (Some sentence)
      | Some cur =>
          if degenerate sentence
          then merge_loop max_gap max_duration rest merged_segments (Some cur)
          else if can_merge max_gap max_duration cur sentence
          then merge_loop max_gap max_duration rest merged_segments
                 (Some (absorb cur sentence))
          else merge_loop max_gap max_duration rest (emit merged_segments cur)
                 (Some sentence)
      end
  end.

(** Modelled from the spec: [merge_segments], from the two limits read
    from the keyword arguments on. *)
Definition merge_segments (sentences : list Sentence) (max_gap max_duration : Q)
  : list Sentence :=
  merge_loop max_gap max_duration sentences [] None.

(** ** Speaker model *)

Definition Qgtb (a b : Q) : bool := negb (Qle_bool a b).

(** The inner [for segment in segments] loop of [_find_speaker_for_time];
    the state is [(max_overlap, best_speaker)]. *)
Fixpoint segment_loop (start_time end_time : Q) (speaker_id : str)
    (segments : list Seg.t) (st : Q * str) : Q * str :=
  match segments with
  | [] => st
  | segment :: rest =>
      let overlap :=
        (Qmin end_time (Seg.end_time segment)
         - Qmax start_time (Seg.start_time segment))%Q in
      segment_loop start_time end_time speaker_id rest
        (if Qgtb overlap (fst st) then (overlap, speaker_id) else st)
  end.

(** The outer [for speaker_id, segments in speaker_segments.items()] loop. *)
Fixpoint speaker_loop (start_time end_time : Q) (items : speaker_segments)
    (st : Q * str) : Q * str :=
  match items with
  | [] => st
  | (speaker_id, segments) :: rest =>
      speaker_loop start_time end_time rest
        (segment_loop start_time end_time speaker_id segments st)
  end.

Definition default_speaker : str := lit "spk0".

Definition _find_speaker_for_time (start_time end_time : Q)
    (segs : speaker_segments) : str :=
  snd (speaker_loop start_time end_time segs (0%Q, default_speaker)).

(** The store of sentence dicts: [combine_with_asr] writes the ["speaker"]
    key of the dicts it is given, so a transcript is a list of references
    into a store. *)
Abbreviation loc := nat.

(** The loop of [combine_with_asr].  [None] stands for a reference to no
    object, which no Python state contains. *)
Fixpoint combine_loop (segs : speaker_segments) (sentences : list loc)
    (h : gmap nat Sentence) (combined_sentences : list loc)
  : option (gmap nat Sentence * list loc) :=
  match sentences with
  | [] => Some (h, combined_sentences)
  | l :: rest =>
      match h !! l with
      | Some sentence =>
          let speaker_id :=
            _find_speaker_for_time (start_time sentence) (end_time sentence) segs in
          combine_loop segs rest (<[l := set_speaker sentence speaker_id]> h)
            (combined_sentences ++ [l])
      | None => None
      end
  end.

(** [combine_with_asr]: the store afterwards and the ["sentences"] list of
    the returned dict. *)
Definition combine_with_asr (h : gmap nat Sentence) (sentences : list loc)
    (segs : speaker_segments) : option (gmap nat Sentence * list loc) :=
  combine_loop segs sentences h [].

(** The transcript a list of references denotes in a store. *)
Definition deref (h : gmap nat Sentence) (refs : list loc) : list Sentence :=
  omap (fun l => h !! l) refs.

(** ** Notions the specification uses *)

(** The raw overlap of one span with the utterance, as line 129 computes
    it; it is negative when the two are apart. *)
Definition overlap (start_time end_time : Q) (segment : Seg.t) : Q :=
  (Qmin end_time (Seg.end_time segment)
   - Qmax start_time (Seg.start_time segment))%Q.

(** Section 4.2 of the specification: the overlap of a speaker with the
    utterance is the sum over the speaker's spans of the overlap clamped at
    zero. *)
Definition total_overlap (start_time end_time : Q) (segments : list Seg.t) : Q :=
  fold_right (fun seg acc => (Qmax 0 (overlap start_time end_time seg) + acc)%Q)
    0%Q segments.

(** No span of the diarization overlaps the utterance. *)
Definition no_overlap (start_time end_time : Q) (items : speaker_segments) : Prop :=
  Forall (fun item => Forall (fun seg => (overlap start_time end_time seg <= 0)%Q)
                        item.2) items.

(** Every span of [items] overlaps the utterance by at most (less than) [m]. *)
Definition all_le (start_time end_time : Q) (m : Q) (items : speaker_segments) : Prop :=
  Forall (fun item => Forall (fun seg => (overlap start_time end_time seg <= m)%Q)
                        item.2) items.
Definition all_lt (start_time end_time : Q) (m : Q) (items : speaker_segments) : Prop :=
  Forall (fun item => Forall (fun seg => (overlap start_time end_time seg < m)%Q)
                        item.2) items.

(** The statement of section 4.2 read on the code: the speaker returned has
    a total overlap that no speaker of the diarization exceeds. *)
Definition returns_max_total (start_time end_time : Q) (items : speaker_segments) : Prop :=
  forall id segs best,
    (id, segs) ∈ items ->
    (_find_speaker_for_time start_time end_time items, best) ∈ items ->
    (total_overlap start_time end_time segs <= total_overlap start_time end_time best)%Q.

(** The tie-break of section 4.2 read on the code: the sentinel is returned
    exactly when no speaker has a positive total overlap. *)
Definition sentinel_iff_zero (start_time end_time : Q) (items : speaker_segments) : Prop :=
  _find_speaker_for_time start_time end_time items = default_speaker
  <-> forall id segs, (id, segs) ∈ items ->
        (total_overlap start_time end_time segs == 0)%Q.

(** The tie-break of section 4.2 read on the code: of the speakers whose
    total overlap is the positive maximum, the first of the iteration order
    is returned. *)
Definition first_of_tied_totals (start_time end_time : Q) (items : speaker_segments) : Prop :=
  forall before id segs after,
    items = before ++ (id, segs) :: after ->
    (0 < total_overlap start_time end_time segs)%Q ->
    Forall (fun item => (total_overlap start_time end_time item.2
                         < total_overlap start_time end_time segs)%Q) before ->
    Forall (fun item => (total_overlap start_time end_time item.2
                         <= total_overlap start_time end_time segs)%Q) after ->
    _find_speaker_for_time start_time end_time items = id.

(** The speaker [combine_with_asr] writes into a sentence. *)
Definition label (segs : speaker_segments) (s : Sentence) : Sentence :=
  set_speaker s (_find_speaker_for_time (start_time s) (end_time s) segs).

(** Section 4.3 of the specification read on the code: no utterance of
    zero duration is left in the fused transcript. *)
Definition drops_zero_duration (h : gmap nat Sentence) (refs : list nat)
    (segs : speaker_segments) : Prop :=
  forall h' out,
    combine_with_asr h refs segs = Some (h', out) ->
    Forall (fun s => ~ (end_time s == start_time s)%Q) (deref h' out).

(** Example inputs. *)
Definition two_spans_vs_one : speaker_segments :=
  [(lit "A", [Seg.make 0 3; Seg.make 4 7]); (lit "B", [Seg.make 5 9])].
Definition tied_totals : speaker_segments :=
  [(lit "A", [Seg.make 0 2; Seg.make 3 5]); (lit "B", [Seg.make 5 9])].
Definition only_spk0 : speaker_segments :=
  [(lit "spk0", [Seg.make 0 10])].
Definition instant_store : gmap nat Sentence :=
  {[ 0%nat := utterance 1 1 (lit "x") [] ]}.

(** The three conditions of section 4.4 for an utterance [u] to join the
    open cue [acc]. *)
Definition merge_conditions (max_gap max_duration : Q) (acc u : Sentence) : Prop :=
  speaker u = speaker acc
  /\ (start_time u - end_time acc <= max_gap)%Q
  /\ (end_time u - start_time acc <= max_duration)%Q.

(** The cue [c] stands for the run [g] of utterances: it starts with the
    first, ends with the last, and every utterance of the run has the
    speaker of the cue. *)
Definition covers (c : Sentence) (g : list Sentence) : Prop :=
  (exists first, head g = Some first /\ start_time c = start_time first)
  /\ (exists final, last g = Some final /\ end_time c = end_time final)
  /\ Forall (fun u => speaker u = speaker c) g.

(** An utterance that has a duration: the ones a transform keeps. *)
Definition live (s : Sentence) : Prop := degenerate s = false.

Global Instance live_dec (s : Sentence) : Decision (live s) :=
  decide (degenerate s = false).

(** A run of utterances: the one that opens a cue and those merged into it
    after it, in order. *)
Definition cue_run : Type := Sentence * list Sentence.

Definition run_list (r : cue_run) : list Sentence := r.1 :: r.2.

(** The cue that a run is merged into. *)
Definition run_cue (r : cue_run) : Sentence := fold_left absorb r.2 r.1.

(** Each utterance of [others] in turn meets the three conditions of
    section 4.4 against the cue that is open when it comes. *)
Fixpoint joins (max_gap max_duration : Q) (cur : Sentence)
    (others : list Sentence) : Prop :=
  match others with
  | [] => True
  | u :: rest =>
      merge_conditions max_gap max_duration cur u
      /\ joins max_gap max_duration (absorb cur u) rest
  end.

(** The utterance that opens a run does not meet the three conditions
    against the cue of the run before it. *)
Fixpoint closed_runs (max_gap max_duration : Q) (runs : list cue_run) : Prop :=
  match runs with
  | r :: rest =>
      match rest with
      | r' :: _ => ~ merge_conditions max_gap max_duration (run_cue r) r'.1
      | [] => True
      end
      /\ closed_runs max_gap max_duration rest
  | [] => True
  end.

(** The contract of sections 3 and 6 on a transcript: no utterance ends
    before it starts, and the utterances come in non-decreasing order of
    their starts. *)
Definition chronological (sentences : list Sentence) : Prop :=
  Forall (fun s => (start_time s <= end_time s)%Q) sentences
  /\ StronglySorted (fun a b => (start_time a <= start_time b)%Q) sentences.

Definition digit_chars : str := lit "0123456789".

(** A well-formed timestamp of section 4.1: two digits of hours, minutes
    and seconds each, three of milliseconds, the separators in place,
    minutes and seconds at most 59. *)
Definition well_formed_timestamp (s : str) : Prop :=
  exists h1 h2 m1 m2 s1 s2 k1 k2 k3,
    s = [h1; h2] ++ lit ":" ++ [m1; m2] ++ lit ":" ++ [s1; s2] ++ lit ","
        ++ [k1; k2; k3]
    /\ Forall (fun c => isdigit c = true) [h1; h2; m1; m2; s1; s2; k1; k2; k3]
    /\ Z_of_digits [m1; m2] <= 59
    /\ Z_of_digits [s1; s2] <= 59.

(** An utterance with no text, followed by one that has text. *)
Definition blank_then_text : list Sentence :=
  [utterance 0 1 [] []; utterance 1 2 (lit "a") []].

(** The blocks of a document, as line 127 cuts them. *)
Definition blocks (content : str) : list str := re_split 0 (strip content).

(** The lines of a block, as line 130 cuts them, and the first two. *)
Definition block_lines (block : str) : list str := split nl (strip block).
Definition index_line (block : str) : str := default [] (block_lines block !! 0%nat).
Definition timestamp_line (block : str) : str := default [] (block_lines block !! 1%nat).

(** The cue a block yields, if any. *)
Definition block_cue (block : str) : option Sentence :=
  match parse_block block with
  | Ok o => o
  | Raise _ => None
  end.

(** The number of blocks of a document that yield no cue. *)
Definition skipped_blocks (content : str) : nat :=
  (length (blocks content) - length (omap block_cue (blocks content)))%nat.

(** Section 4.6 of the specification read on the code: the number of
    skipped blocks can be read off the result of the parse. *)
Definition reports_skipped_count : Prop :=
  exists f : ProcessingResult ParseData -> nat,
    forall content, f (parse_srt_file content) = skipped_blocks content.

(** One well-formed cue; and the same cue followed by a block that lacks
    its timestamp line. *)
Definition one_cue_doc : str :=
  join [nl] [lit "1"; lit "00:00:00,000 --> 00:00:01,000"; lit "hello"].
Definition one_cue_one_broken_doc : str :=
  join [nl] [lit "1"; lit "00:00:00,000 --> 00:00:01,000"; lit "hello"; [];
             lit "2"; lit "no timestamp here"; lit "second line"].

(** ** Notions for the round trip of the codec *)

(** No newline of [s] starts a match of the blank-line pattern: [s] holds
    no line that is empty or all whitespace between two newlines. *)
Fixpoint no_blank_line (s : str) : bool :=
  match s with
  | [] => true
  | c :: r =>
      (if eqc c nl then bool_decide (sep_tail r = None) else true)
      && no_blank_line r
  end.

(** A time offset that is a whole number of milliseconds below one hundred
    hours: what two digits of hours and three of milliseconds can hold. *)
Definition whole_millis (t : Q) : Prop :=
  exists ms : Z, 0 <= ms < 360000000 /\ (t == inject_Z ms / 1000)%Q.

(** The utterances the codec carries through unchanged. *)
Record round_trips (u : Sentence) : Prop := {
  rt_nonempty : text u <> [];
  rt_no_leading_space : lstrip (text u) = text u;
  rt_no_trailing_space : rstrip (text u) = text u;
  rt_no_blank_line : no_blank_line (text u) = true;
  rt_speaker_plain : Forall (fun c => c <> "]"%char /\ c <> nl) (speaker u);
  rt_tag :
    match speaker u with
    | [] => speaker_match (text u) = None
    | _ :: _ => nl ∉ text u
    end;
  rt_start : whole_millis (start_time u);
  rt_end : whole_millis (end_time u)
}.

(** The four fields the specification compares. *)
Definition same_utterance (u c : Sentence) : Prop :=
  (start_time u == start_time c)%Q
  /\ (end_time u == end_time c)%Q
  /\ text u = text c
  /\ speaker u = speaker c.

(** Section 4.6 of the specification read on the code: the round trip
    holds for every transcript whose utterances have a non-empty text and no
    closing bracket in their speaker. *)
Definition round_trip_as_stated : Prop :=
  forall T : list Sentence,
    Forall (fun u => text u <> [] /\ "]"%char ∉ speaker u) T ->
    exists T',
      _parse_srt_content (srt_text T true) = Ok T'
      /\ Forall2 same_utterance T T'.

(** An utterance without speaker whose text begins with a bracket; and the
    transcript of the specification's test: three utterances, two speakers,
    one text of several sentences. *)
Definition bracket_text : list Sentence :=
  [utterance 0 1 (lit "[1] take one") []].
Definition three_utterances : list Sentence :=
  [utterance 0 (3 / 2) (lit "Hello there. How are you? Fine.") (lit "spk0");
   utterance (3 / 2) 4 (lit "Good.") (lit "spk1");
   utterance 4 (6001 / 1000) (lit "Bye") (lit "spk0")].

(** [B] put in front of the first piece of a list of pieces. *)
Definition prepend (B : str) (l : list str) : list str :=
  match l with
  | h :: t => (B ++ h) :: t
  | [] => [B]
  end.

(** A string that ends in a character that is no whitespace. *)
Definition ends_ok (s : str) : Prop := rstrip s = s /\ s <> [].

(** The text line of a cue when speakers are included (lines 65-66). *)
Definition tagged (u : Sentence) : str :=
  match speaker u with
  | [] => text u
  | _ :: _ => lit "[" ++ speaker u ++ lit "] " ++ text u
  end.

(** The timestamp line of a cue (line 70). *)
Definition time_line (u : Sentence) : str :=
  _seconds_to_srt_time (start_time u) ++ lit " --> "
  ++ _seconds_to_srt_time (end_time u).

(** The block of a cue, without the empty line that ends it, and the
    blocks of a transcript numbered from [i] on. *)
Definition cue_block (i : Z) (u : Sentence) : str :=
  str_of_int i ++ nl :: time_line u ++ nl :: tagged u.

Fixpoint cue_blocks (i : Z) (T : list Sentence) : list str :=
  match T with
  | [] => []
  | u :: rest => cue_block i u :: cue_blocks (i + 1) rest
  end.

(** What the round trip needs of a block: it ends and starts with a
    character that is no whitespace and holds no blank line. *)
Definition block_ok (b : str) : Prop :=
  ends_ok b /\ no_blank_line b = true
  /\ exists c r, b = c :: r /\ isspace c = false.

(** An utterance with a speaker and a text of two lines. *)
Definition two_lines_with_speaker : list Sentence :=
  [utterance 0 1 (lit "a" ++ nl :: lit "b") (lit "spk0")].

(** ** Speaker model: the diarization as delivered *)

(** One element of the raw result of the diarization model: the keys
    ["speaker"], ["start"] and ["end"], each of which may be absent; the
    times are in milliseconds. *)
Record RawSegment : Type := {
  raw_speaker : option str;
  raw_start : option Q;
  raw_end : option Q
}.

(** [d.get(k)] on a dict kept as its list of items. *)
Fixpoint dict_get (d : speaker_segments) (k : str) : option (list Seg.t) :=
  match d with
  | [] => None
  | (k', v) :: rest => if str_eqb k' k then Some v else dict_get rest k
  end.

(** [d[k] = v]: a key that is there keeps its place, a new key goes to the
    end. *)
Fixpoint dict_set (d : speaker_segments) (k : str) (v : list Seg.t)
  : speaker_segments :=
  match d with
  | [] => [(k, v)]
  | (k', v') :: rest =>
      if str_eqb k' k then (k', v) :: rest else (k', v') :: dict_set rest k v
  end.

(** The segment dict built from one raw element (lines 81-91). *)
Definition parsed_speaker (segment : RawSegment) : str :=
  default default_speaker (raw_speaker segment).

Definition parsed_segment (segment : RawSegment) : Seg.t :=
  let start_time := (default 0 (raw_start segment) / 1000)%Q in
  let end_time := (default 0 (raw_end segment) / 1000)%Q in
  {| Seg.start_time := start_time; Seg.end_time := end_time;
     Seg.duration := (end_time - start_time)%Q |}.

(** The body of the loop of [_parse_speaker_result]. *)
Definition speaker_result_step (d : speaker_segments) (segment : RawSegment)
  : speaker_segments :=
  let speaker_id := parsed_speaker segment in
  let d' :=
    match dict_get d speaker_id with
    | None => dict_set d speaker_id []
    | Some _ => d
    end in
  dict_set d' speaker_id
    (default [] (dict_get d' speaker_id) ++ [parsed_segment segment]).

Record SpeakerResult : Type := {
  sr_speaker_segments : speaker_segments;
  num_speakers : nat;
  speakers : list str
}.

Definition _parse_speaker_result (raw_result : list RawSegment) : SpeakerResult :=
  let d := fold_left speaker_result_step raw_result [] in
  {| sr_speaker_segments := d;
     num_speakers := length d;
     speakers := d.*1 |}.

(** ** Speech recognition model: the transcript as delivered *)

(** One element of the raw result of the recogniser: ["text"],
    ["timestamp"] (a list of pairs of milliseconds) and ["confidence"], each
    of which may be absent. *)
Record RawItem : Type := {
  item_text : option str;
  item_timestamp : option (list (list Q));
  item_confidence : option Q
}.

(** A sentence dict of [_parse_result]. *)
Record AsrSentence : Type := {
  as_text : str;
  as_start_time : Q;
  as_end_time : Q;
  as_confidence : Q
}.

Record AsrResult : Type := {
  asr_sentences : list AsrSentence;
  full_text : str;
  asr_total_duration : Q
}.

(** [item.get("timestamp", [[0, 0]])[0][j] / 1000] *)
Definition timestamp_part (item : RawItem) (j : nat) : result Q :=
  pair ← getitem (default [[0%Q; 0%Q]] (item_timestamp item)) 0;
  t ← getitem pair j;
  Ok (t / 1000)%Q.

(** The dict literal of lines 89-94, its values computed in order. *)
Definition asr_sentence (item : RawItem) (text : str) : result AsrSentence :=
  start_time ← timestamp_part item 0;
  end_time ← timestamp_part item 1;
  Ok {| as_text := text; as_start_time := start_time; as_end_time := end_time;
        as_confidence := default 1%Q (item_confidence item) |}.

(** The loop of [_parse_result]. *)
Fixpoint asr_loop (raw_result : list RawItem) (sentences : list AsrSentence)
  : result (list AsrSentence) :=
  match raw_result with
  | [] => Ok sentences
  | item :: rest =>
      match item_text item with
      | Some text =>
          s ← asr_sentence item text;
          asr_loop rest (sentences ++ [s])
      | None => asr_loop rest sentences
      end
  end.

Definition _parse_result (raw_result : list RawItem) : result AsrResult :=
  sentences ← asr_loop raw_result [];
  Ok {| asr_sentences := sentences;
        full_text := join (lit " ") (as_text <$> sentences);
        asr_total_duration := match last sentences with
                              | Some s => as_end_time s
                              | None => 0%Q
                              end |}.

(** The sentence dict as the subtitle processor and the speaker model read
    it: without speaker. *)
Definition to_sentence (s : AsrSentence) : Sentence :=
  utterance (as_start_time s) (as_end_time s) (as_text s) [].

(** ** Windows utilities *)

(** The characters of the string of line 28: the two angle brackets, the
    colon, the double quote, the slash, the backslash, the bar, the question
    mark and the asterisk. *)
Definition invalid_chars : str :=
  ascii_of_N <$> [60; 62; 58; 34; 47; 92; 124; 63; 42]%N.

(** [s.replace(old, new)] for one-character strings. *)
Definition replace (old new : ascii) (s : str) : str :=
  (fun c => if eqc c old then new else c) <$> s.

Definition get_safe_filename (filename : str) : str :=
  fold_left (fun filename char => replace char underscore filename)
    invalid_chars filename.

(** ** Audio and video processors: cutting by segments *)

(** A segment dict given to [segment_audio] or [clip_video]: the keys
    ["start_time"], ["end_time"] and ["name"], each of which may be absent. *)
Record ClipSegment : Type := {
  cs_start_time : option Q;
  cs_end_time : option Q;
  cs_name : option str
}.

(** An entry of [segmented_files] or [clipped_files]; the size and the
    video information that [clip_video] adds from the file system are left
    out. *)
Record Piece : Type := {
  segment_index : nat;
  file_path : str;
  p_start_time : Q;
  p_end_time : Q;
  p_duration : Q
}.

(** The loop of [segment_audio] (lines 148-185) and of [clip_video] (lines
    52-91).  What the code takes from outside is a parameter: [command]
    builds the ffmpeg command line, [output_file] joins directory, safe name
    and extension, and [run i cmd path] tells whether the [i]-th run of
    ffmpeg returned 0 and left the output file behind.  [prefix] is the stem
    of the default name. *)
Fixpoint cut_loop (command : str -> Q -> Q -> list str)
    (output_file : str -> str) (run : nat -> list str -> str -> bool)
    (prefix : str) (i : nat) (segments : list ClipSegment)
    (files : list Piece) : list Piece :=
  match segments with
  | [] => files
  | segment :: rest =>
      let start_time := default 0%Q (cs_start_time segment) in
      let end_time := default 0%Q (cs_end_time segment) in
      if Qle_bool end_time start_time
      then cut_loop command output_file run prefix (S i) rest files
      else
        let segment_name :=
          default (prefix ++ format_0d 3 (Z.of_nat i)) (cs_name segment) in
        let safe_name := get_safe_filename segment_name in
        let output_path := output_file safe_name in
        let cmd := command output_path start_time end_time in
        if run i cmd output_path
        then cut_loop command output_file run prefix (S i) rest
               (files ++ [{| segment_index := i; file_path := output_path;
                             p_start_time := start_time; p_end_time := end_time;
                             p_duration := (end_time - start_time)%Q |}])
        else cut_loop command output_file run prefix (S i) rest files
  end.

(** The [data] of the result of [segment_audio]. *)
Record SegmentData : Type := {
  sd_segments : list Piece;
  total_segments : nat
}.

Definition segment_audio (command : str -> Q -> Q -> list str)
    (output_file : str -> str) (run : nat -> list str -> str -> bool)
    (segments : list ClipSegment) : SegmentData :=
  let segmented_files :=
    cut_loop command output_file run (lit "segment_") 0 segments [] in
  {| sd_segments := segmented_files; total_segments := length segmented_files |}.

(** The [data] of the result of [clip_video]. *)
Record ClipData : Type := {
  clips : list Piece;
  total_clips : nat;
  clips_total_duration : Q
}.

Definition clip_video (command : str -> Q -> Q -> list str)
    (output_file : str -> str) (run : nat -> list str -> str -> bool)
    (segments : list ClipSegment) : ClipData :=
  let clipped_files :=
    cut_loop command output_file run (lit "clip_") 0 segments [] in
  {| clips := clipped_files; total_clips := length clipped_files;
     clips_total_duration :=
       fold_left (fun acc clip => (acc + p_duration clip)%Q) clipped_files 0%Q |}.

(** ** Notions for the further properties *)

(** The sentences that [generate_srt] writes a cue for. *)
Definition has_text (s : Sentence) : bool :=
  match strip (text s) with
  | [] => false
  | _ :: _ => true
  end.

(** The index lines among the lines written: every fourth line. *)
Fixpoint index_lines (lines : list str) : list str :=
  match lines with
  | idx :: _ :: _ :: _ :: rest => idx :: index_lines rest
  | _ => []
  end.

(** The sentences with their 1-based positions from [i] on. *)
Fixpoint numbered (i : Z) (sentences : list Sentence) : list (Z * Sentence) :=
  match sentences with
  | [] => []
  | s :: rest => (i, s) :: numbered (i + 1) rest
  end.

(** A file system in which only the file [out.srt] can be written. *)
Definition only_out_srt (path text : str) : bool :=
  bool_decide (path = lit "out.srt").

(** [sentence] without its speaker. *)
Definition clear_speaker (s : Sentence) : Sentence := set_speaker s [].

(** What holds of every cue the parser returns. *)
Definition parsed_cue_ok (c : Sentence) : Prop :=
  is_Some (index c)
  /\ ("]"%char ∉ speaker c)
  /\ match speaker c with
     | [] => text c <> [] /\ rstrip (text c) = text c
     | _ :: _ => (nl ∉ text c) /\ lstrip (text c) = text c
     end.

(** The first pair of the timestamp of a raw item has two elements: what
    [_parse_result] needs of an item that has a text. *)
Definition first_pair (item : RawItem) : option (Q * Q) :=
  match default [[0%Q; 0%Q]] (item_timestamp item) with
  | (a :: b :: _) :: _ => Some (a, b)
  | _ => None
  end.

Definition usable (item : RawItem) : Prop :=
  is_Some (item_text item) -> is_Some (first_pair item).

(** The sentence that stands for a raw item. *)
Definition stands_for (item : RawItem) (s : AsrSentence) : Prop :=
  item_text item = Some (as_text s)
  /\ (exists a b, first_pair item = Some (a, b)
                  /\ as_start_time s = (a / 1000)%Q
                  /\ as_end_time s = (b / 1000)%Q)
  /\ as_confidence s = default 1%Q (item_confidence item).

(** The piece [p] was cut from the segment at its index in [segments],
    which has a positive duration. *)
Definition cut_from (segments : list ClipSegment) (p : Piece) : Prop :=
  exists segment,
    segments !! segment_index p = Some segment
    /\ p_start_time p = default 0%Q (cs_start_time segment)
    /\ p_end_time p = default 0%Q (cs_end_time segment)
    /\ (p_start_time p < p_end_time p)%Q
    /\ p_duration p = (p_end_time p - p_start_time p)%Q.

(** The segments that a cutting loop sends to ffmpeg. *)
Definition positive (segment : ClipSegment) : Prop :=
  (default 0%Q (cs_start_time segment) < default 0%Q (cs_end_time segment))%Q.

Global Instance positive_dec (segment : ClipSegment) : Decision (positive segment) :=
  match Qlt_le_dec (default 0%Q (cs_start_time segment))
                   (default 0%Q (cs_end_time segment)) with
  | left H => left H
  | right H => right (Qle_not_lt _ _ H)
  end.

(** * Properties *)

(** ** Speaker filter *)

Section Filter.
Implicit Types (sentences acc : list Sentence) (speakers : gset str).

Lemma filter_loop_filter speakers sentences acc :
  filter_loop speakers sentences acc
  = acc ++ filter (fun s => speaker s ∈ speakers) sentences.
Proof.
  revert acc. induction sentences as [|s rest IH]; intros acc; simpl.
  - by rewrite app_nil_r.
  - rewrite filter_cons. case_bool_decide as Hin.
    + rewrite decide_True by done. rewrite IH. by rewrite <- app_assoc.
    + rewrite decide_False by done. apply IH.
Qed.

Lemma filter_keeps_all speakers sentences :
  (forall s, s ∈ sentences -> speaker s ∈ speakers) ->
  filter (fun s => speaker s ∈ speakers) sentences = sentences.
Proof.
  induction sentences as [|s rest IH]; intros Hall; [done|].
  rewrite filter_cons_True by (apply Hall; left).
  f_equal. apply IH. intros s' Hs'. apply Hall. by right.
Qed.

(** C9: an empty set of wanted speakers gives a failure result that
    carries no transcript; a non-empty set gives a success whose sentences
    are exactly those of the input whose speaker is in the set, in their
    input order, so that a set holding every speaker of the input gives
    the input back. *)
Theorem filter_by_speaker_correct sentences speakers :
  (speakers = ∅ ->
     filter_by_speaker sentences speakers = fail MissingTargetSpeakers
     /\ success (filter_by_speaker sentences speakers) = false
     /\ data (filter_by_speaker sentences speakers) = None)
  /\ (speakers <> ∅ ->
      exists d,
        filter_by_speaker sentences speakers = succeed d
        /\ fd_sentences d = filter (fun s => speaker s ∈ speakers) sentences
        /\ (forall s, s ∈ fd_sentences d <-> s ∈ sentences /\ speaker s ∈ speakers)
        /\ fd_sentences d `sublist_of` sentences
        /\ ((forall s, s ∈ sentences -> speaker s ∈ speakers) ->
            fd_sentences d = sentences)).
Proof.
  unfold filter_by_speaker. split; intros Hs.
  - by rewrite bool_decide_eq_true_2.
  - rewrite bool_decide_eq_false_2 by done.
    eexists; split; [reflexivity|]. simpl.
    rewrite filter_loop_filter. simpl.
    split; [done|]. split; [|split].
    + intros s. rewrite list_elem_of_filter. tauto.
    + apply sublist_filter.
    + apply filter_keeps_all.
Qed.
End Filter.

(** ** Interval overlap resolver *)

Section Resolver.
Variables start_time end_time : Q.
Let ov := overlap start_time end_time.

Lemma Qgtb_true (a b : Q) : Qgtb a b = true <-> (b < a)%Q.
Proof.
  unfold Qgtb. rewrite negb_true_iff, <- not_true_iff_false, Qle_bool_iff.
  split; [apply Qnot_le_lt | apply Qlt_not_le].
Qed.

Lemma Qgtb_false (a b : Q) : Qgtb a b = false <-> (a <= b)%Q.
Proof. unfold Qgtb. by rewrite negb_false_iff, Qle_bool_iff. Qed.

Lemma segment_loop_cons id seg rest st :
  segment_loop start_time end_time id (seg :: rest) st
  = segment_loop start_time end_time id rest
      (if Qgtb (ov seg) st.1 then (ov seg, id) else st).
Proof. reflexivity. Qed.

(** One speaker's spans: either none beats the maximum so far and the
    state is unchanged, or the speaker becomes the best one with the
    greatest overlap of its spans. *)
Lemma segment_loop_spec (id : str) (segments : list Seg.t) (m m' : Q) (b b' : str) :
  segment_loop start_time end_time id segments (m, b) = (m', b') ->
  (Forall (fun seg => (ov seg <= m)%Q) segments /\ (m', b') = (m, b))
  \/ (b' = id /\ (m < m')%Q
      /\ Exists (fun seg => ov seg = m') segments
      /\ Forall (fun seg => (ov seg <= m')%Q) segments).
Proof.
  revert m b. induction segments as [|seg rest IH]; intros m b.
  - simpl. intros [= <- <-]. left. by split.
  - rewrite segment_loop_cons. simpl.
    destruct (Qgtb (ov seg) m) eqn:Hgt; intros Hloop.
    + apply Qgtb_true in Hgt. right.
      destruct (IH _ _ Hloop) as [[Hall [= -> ->]] | (Hid & Hlt & Hex & Hall)].
      * split_and!; [done | done | by left |].
        constructor; [apply Qle_refl | done].
      * split_and!; [done | lra | by right |].
        constructor; [lra | done].
    + apply Qgtb_false in Hgt.
      destruct (IH _ _ Hloop) as [[Hall [= -> ->]] | (Hid & Hlt & Hex & Hall)].
      * left. split; [by constructor | done].
      * right. split_and!; [done | done | by right |].
        constructor; [lra | done].
Qed.

(** All speakers: either no span beats the initial maximum, or the state
    holds the first speaker, in iteration order, that owns a span of the
    greatest overlap. *)
Lemma speaker_loop_spec (items : speaker_segments) (m m' : Q) (b b' : str) :
  speaker_loop start_time end_time items (m, b) = (m', b') ->
  (all_le start_time end_time m items /\ (m', b') = (m, b))
  \/ (exists before segs after,
        items = before ++ (b', segs) :: after
        /\ (m < m')%Q
        /\ Exists (fun seg => ov seg = m') segs
        /\ all_lt start_time end_time m' before
        /\ Forall (fun seg => (ov seg <= m')%Q) segs
        /\ all_le start_time end_time m' after).
Proof.
  revert m b. induction items as [|[id segs] rest IH]; intros m b; simpl.
  - intros [= <- <-]. left. split; [constructor | done].
  - destruct (segment_loop start_time end_time id segs (m, b)) as [m1 b1] eqn:E.
    intros Hloop.
    destruct (segment_loop_spec _ _ _ _ _ _ E) as [[Hall [= -> ->]] | (-> & Hlt & Hex & Hall)];
      destruct (IH _ _ Hloop)
        as [[Hrest [= -> ->]] | (i1 & sg & i2 & -> & Hlt' & Hex' & H1 & H2 & H3)].
    + left. split; [by constructor | done].
    + right. exists ((id, segs) :: i1), sg, i2.
      split_and!; try done.
      constructor; [|done]. simpl.
      eapply Forall_impl; [exact Hall|]. simpl. intros seg Hle. unfold ov in *. lra.
    + right. exists [], segs, rest. simpl.
      split_and!; try done. constructor.
    + right. exists ((id, segs) :: i1), sg, i2.
      split_and!; try done; [lra|].
      constructor; [|done]. simpl.
      eapply Forall_impl; [exact Hall|]. simpl. intros seg Hle. unfold ov in *. lra.
Qed.
End Resolver.

Lemma all_lt_le start_time end_time m items :
  all_lt start_time end_time m items -> all_le start_time end_time m items.
Proof.
  unfold all_lt, all_le. intros H.
  eapply Forall_impl; [exact H|]. intros item Hitem.
  eapply Forall_impl; [exact Hitem|]. intros seg. apply Qlt_le_weak.
Qed.

Lemma all_le_app_cons start_time end_time m before id segs after :
  all_le start_time end_time m before ->
  Forall (fun seg => (overlap start_time end_time seg <= m)%Q) segs ->
  all_le start_time end_time m after ->
  all_le start_time end_time m (before ++ (id, segs) :: after).
Proof.
  intros H1 H2 H3. apply Forall_app. split; [done|]. by constructor.
Qed.

Lemma no_overlap_no_positive start_time end_time before id segs after m :
  no_overlap start_time end_time (before ++ (id, segs) :: after) ->
  Exists (fun seg => overlap start_time end_time seg = m) segs ->
  (0 < m)%Q -> False.
Proof.
  intros Hno Hex Hpos. apply Forall_app in Hno as [_ Hno].
  apply Forall_cons in Hno as [Hno _]. simpl in Hno.
  apply Exists_exists in Hex as (seg & Hin & <-).
  rewrite Forall_forall in Hno. specialize (Hno _ Hin). lra.
Qed.

(** C2, as the code has it: the resolver compares single spans.  When no
    span overlaps the utterance it returns the default speaker; otherwise
    the speaker it returns owns a span with a positive overlap that no span
    of any speaker exceeds. *)
Theorem find_speaker_max_single_span (start_time end_time : Q) (items : speaker_segments) :
  (no_overlap start_time end_time items ->
     _find_speaker_for_time start_time end_time items = default_speaker)
  /\ (~ no_overlap start_time end_time items ->
      exists segs seg,
        (_find_speaker_for_time start_time end_time items, segs) ∈ items
        /\ seg ∈ segs
        /\ (0 < overlap start_time end_time seg)%Q
        /\ all_le start_time end_time (overlap start_time end_time seg) items).
Proof.
  unfold _find_speaker_for_time.
  destruct (speaker_loop start_time end_time items (0%Q, default_speaker))
    as [m' b'] eqn:E. simpl.
  destruct (speaker_loop_spec _ _ _ _ _ _ _ E)
    as [[Hall [= -> ->]] | (i1 & sg & i2 & -> & Hlt & Hex & H1 & H2 & H3)].
  - split; [done|]. intros Hno. by destruct Hno.
  - split.
    + intros Hno. destruct (no_overlap_no_positive _ _ _ _ _ _ _ Hno Hex Hlt).
    + intros _. apply Exists_exists in Hex as (seg & Hin & Hov).
      exists sg, seg. split_and!.
      * apply elem_of_app. right. left.
      * done.
      * by rewrite Hov.
      * rewrite Hov. apply all_le_app_cons; [by apply all_lt_le | done | done].
Qed.

(** C2, as stated, fails: speaker A overlaps the utterance [0,10] for 6
    seconds in two spans of 3, speaker B for 4 seconds in one span, and the
    resolver returns B. *)
Lemma find_speaker_not_max_total : ~ returns_max_total 0 10 two_spans_vs_one.
Proof.
  intros H.
  specialize (H (lit "A") [Seg.make 0 3; Seg.make 4 7] [Seg.make 5 9]).
  assert (Hr : _find_speaker_for_time 0 10 two_spans_vs_one = lit "B")
    by (vm_compute; reflexivity).
  rewrite Hr in H.
  assert (Hle : (total_overlap 0 10 [Seg.make 0 3; Seg.make 4 7]
                 <= total_overlap 0 10 [Seg.make 5 9])%Q).
  { apply H; unfold two_spans_vs_one; [left | right; left]. }
  vm_compute in Hle. by apply Hle.
Qed.

(** C6, as the code has it: the default speaker is returned whenever no
    span overlaps the utterance, and only then unless a speaker of the
    diarization bears the default name; when some span overlaps, the
    speaker returned is the first of the iteration order that owns a span of
    the greatest overlap, every span of the speakers before it being
    strictly smaller. *)
Theorem find_speaker_default_and_first (start_time end_time : Q) (items : speaker_segments) :
  (no_overlap start_time end_time items ->
     _find_speaker_for_time start_time end_time items = default_speaker)
  /\ (default_speaker ∉ items.*1 ->
      _find_speaker_for_time start_time end_time items = default_speaker ->
      no_overlap start_time end_time items)
  /\ (~ no_overlap start_time end_time items ->
      exists before segs after m,
        items = before ++ (_find_speaker_for_time start_time end_time items, segs) :: after
        /\ (0 < m)%Q
        /\ Exists (fun seg => overlap start_time end_time seg = m) segs
        /\ all_lt start_time end_time m before
        /\ Forall (fun seg => (overlap start_time end_time seg <= m)%Q) segs
        /\ all_le start_time end_time m after).
Proof.
  unfold _find_speaker_for_time.
  destruct (speaker_loop start_time end_time items (0%Q, default_speaker))
    as [m' b'] eqn:E. simpl.
  destruct (speaker_loop_spec _ _ _ _ _ _ _ E)
    as [[Hall [= -> ->]] | (i1 & sg & i2 & -> & Hlt & Hex & H1 & H2 & H3)].
  - split_and!; [done | done |]. intros Hno. by destruct Hno.
  - split_and!.
    + intros Hno. destruct (no_overlap_no_positive _ _ _ _ _ _ _ Hno Hex Hlt).
    + intros Hfresh ->. destruct Hfresh.
      rewrite fmap_app, fmap_cons. apply elem_of_app. right. left.
    + intros _. by exists i1, sg, i2, m'.
Qed.

(** C6, as stated, fails twice: a diarization whose only speaker bears the
    default name gets the default name back with a positive overlap; and of
    two speakers that tie on a total overlap of 4 seconds the second one is
    returned, as its single span is the longest. *)
Lemma find_speaker_sentinel_and_ties :
  ~ sentinel_iff_zero 0 10 only_spk0 /\ ~ first_of_tied_totals 0 10 tied_totals.
Proof.
  split.
  - intros [Hzero _].
    assert (Hr : _find_speaker_for_time 0 10 only_spk0 = default_speaker)
      by (vm_compute; reflexivity).
    specialize (Hzero Hr (lit "spk0") [Seg.make 0 10]).
    assert (Hz : (total_overlap 0 10 [Seg.make 0 10] == 0)%Q)
      by (apply Hzero; left).
    vm_compute in Hz. discriminate Hz.
  - intros H.
    specialize (H [] (lit "A") [Seg.make 0 2; Seg.make 3 5] [(lit "B", [Seg.make 5 9])]).
    assert (Hr : _find_speaker_for_time 0 10 tied_totals = lit "A").
    { apply H; [reflexivity | by vm_compute | constructor |].
      constructor; [|constructor]. simpl. vm_compute. discriminate. }
    vm_compute in Hr. discriminate Hr.
Qed.

(** ** Fusion *)

Section Fusion.
Variable segs : speaker_segments.
Implicit Types (h : gmap nat Sentence) (refs : list nat).

Lemma label_idem s : label segs (label segs s) = label segs s.
Proof. reflexivity. Qed.

(** Without a span that overlaps the utterance the resolver keeps the
    default speaker. *)
Lemma find_speaker_no_overlap (start_time end_time : Q) (items : speaker_segments) :
  no_overlap start_time end_time items ->
  _find_speaker_for_time start_time end_time items = default_speaker.
Proof.
  intros Hno. unfold _find_speaker_for_time.
  destruct (speaker_loop start_time end_time items (0%Q, default_speaker))
    as [m' b'] eqn:E. simpl.
  destruct (speaker_loop_spec _ _ _ _ _ _ _ E)
    as [[_ [= _ ->]] | (i1 & sg & i2 & -> & Hlt & Hex & _)]; [done|].
  destruct (no_overlap_no_positive _ _ _ _ _ _ _ Hno Hex Hlt).
Qed.

(** An utterance that ends where it starts, or before, overlaps no span
    positively and gets the default speaker. *)
Lemma find_speaker_instant (start_time end_time : Q) :
  (end_time <= start_time)%Q ->
  _find_speaker_for_time start_time end_time segs = default_speaker.
Proof.
  intros Hle. apply find_speaker_no_overlap.
  unfold no_overlap. apply Forall_forall. intros item _.
  apply Forall_forall. intros seg _. unfold overlap.
  pose proof (Q.le_min_l end_time (Seg.end_time seg)).
  pose proof (Q.le_max_l start_time (Seg.start_time seg)).
  lra.
Qed.

(** The loop visits every reference in order, keeps each of them, and
    rewrites the dict behind it. *)
Lemma combine_loop_spec refs h acc :
  (forall l, l ∈ refs -> is_Some (h !! l)) ->
  exists h',
    combine_loop segs refs h acc = Some (h', acc ++ refs)
    /\ (forall l, l ∉ refs -> h' !! l = h !! l)
    /\ (forall l s, l ∈ refs -> h !! l = Some s -> h' !! l = Some (label segs s)).
Proof.
  revert h acc. induction refs as [|l0 rest IH]; intros h acc Halloc; simpl.
  - exists h. rewrite app_nil_r. split_and!; [done | done |].
    intros l s Hin. by apply elem_of_nil in Hin.
  - destruct (Halloc l0) as [s0 Hs0]; [left|]. rewrite Hs0.
    fold (label segs s0).
    destruct (IH (<[l0 := label segs s0]> h) (acc ++ [l0])) as (h' & Hrun & Hout & Hin).
    { intros l Hl. destruct (decide (l = l0)) as [->|Hne].
      - rewrite lookup_insert_eq. by eexists.
      - rewrite lookup_insert_ne by done. apply Halloc. by right. }
    exists h'. split_and!.
    + rewrite Hrun. by rewrite <- app_assoc.
    + intros l Hl. apply not_elem_of_cons in Hl as [Hne Hl].
      rewrite Hout by done. by rewrite lookup_insert_ne.
    + intros l s Hl Hs.
      destruct (decide (l ∈ rest)) as [Hrest|Hrest].
      * destruct (decide (l = l0)) as [->|Hne].
        -- rewrite Hs0 in Hs. injection Hs as <-.
           rewrite <- (label_idem s0). apply Hin; [done|].
           by rewrite lookup_insert_eq.
        -- apply Hin; [done|]. by rewrite lookup_insert_ne.
      * apply elem_of_cons in Hl as [->|Hl]; [|done].
        rewrite Hs0 in Hs. injection Hs as <-.
        rewrite Hout by done. by rewrite lookup_insert_eq.
Qed.

Lemma deref_label h h' refs :
  (forall l, l ∈ refs -> is_Some (h !! l)) ->
  (forall l s, l ∈ refs -> h !! l = Some s -> h' !! l = Some (label segs s)) ->
  deref h' refs = label segs <$> deref h refs.
Proof.
  unfold deref. induction refs as [|l rest IH]; intros Halloc Hlab; [done|].
  simpl. destruct (Halloc l) as [s Hs]; [left|].
  rewrite Hs, (Hlab l s) by (done || left). simpl. f_equal.
  apply IH; intros l' **; [apply Halloc | apply Hlab]; done || by right.
Qed.

(** C5, as the code has it: on a store in which every sentence of the
    transcript exists, fusion returns; the list it returns holds the same
    references in the same order (no sentence is dropped, whatever its
    duration); the dict behind each of them has the speaker of the
    resolver written into it, in place; the other dicts of the store are
    untouched; and a sentence of zero duration is labelled with the
    default speaker. *)
Theorem combine_with_asr_labels_all h refs :
  (forall l, l ∈ refs -> is_Some (h !! l)) ->
  exists h',
    combine_with_asr h refs segs = Some (h', refs)
    /\ deref h' refs = label segs <$> deref h refs
    /\ length (deref h' refs) = length refs
    /\ (forall l s, l ∈ refs -> h !! l = Some s -> h' !! l = Some (label segs s))
    /\ (forall l, l ∉ refs -> h' !! l = h !! l)
    /\ (forall l s, l ∈ refs -> h !! l = Some s ->
        (end_time s == start_time s)%Q ->
        speaker <$> h' !! l = Some default_speaker).
Proof.
  intros Halloc. unfold combine_with_asr.
  destruct (combine_loop_spec refs h [] Halloc) as (h' & Hrun & Hout & Hin).
  exists h'. split_and!; try done.
  - by apply deref_label.
  - rewrite (deref_label h h') by done. rewrite length_fmap.
    unfold deref. clear Hrun Hout Hin.
    induction refs as [|l rest IH]; [done|]. simpl.
    destruct (Halloc l) as [s ->]; [left|]. simpl. f_equal.
    apply IH. intros l' Hl'. apply Halloc. by right.
  - intros l s Hl Hs Hzero. rewrite (Hin l s) by done. simpl. f_equal.
    apply find_speaker_instant. rewrite Hzero. apply Qle_refl.
Qed.
End Fusion.

(** C5, as stated, fails: a sentence that starts and ends at second 1 is
    still in the fused transcript. *)
Lemma combine_with_asr_keeps_instant :
  ~ drops_zero_duration instant_store [0%nat] only_spk0.
Proof.
  intros H.
  destruct (combine_with_asr instant_store [0%nat] only_spk0) as [[h' out]|] eqn:E;
    [|by vm_compute in E].
  specialize (H h' out E).
  vm_compute in E. injection E as <- <-.
  vm_compute in H. inversion H as [|? ? Hne _]. by apply Hne.
Qed.

(** ** Segment merger *)

Section Merger.
Variables max_gap max_duration : Q.
Implicit Types (sentences rest merged : list Sentence) (cur u : Sentence).

Lemma str_eqb_eq (a b : str) : str_eqb a b = true <-> a = b.
Proof. unfold str_eqb. apply bool_decide_eq_true. Qed.

Lemma can_merge_iff cur u :
  can_merge max_gap max_duration cur u = true
  <-> merge_conditions max_gap max_duration cur u.
Proof.
  unfold can_merge, merge_conditions.
  rewrite !andb_true_iff, str_eqb_eq, !Qle_bool_iff. tauto.
Qed.

Lemma emit_app merged cur : emit merged cur = merged ++ emit [] cur.
Proof. unfold emit. destruct (degenerate cur); [by rewrite app_nil_r | done]. Qed.

Lemma emit_filter cur : emit [] cur = filter live [cur].
Proof.
  unfold emit. destruct (degenerate cur) eqn:E.
  - by rewrite filter_cons_False by (unfold live; congruence).
  - by rewrite filter_cons_True by done.
Qed.

Lemma merge_loop_app rest merged (cur : option Sentence) :
  merge_loop max_gap max_duration rest merged cur
  = merged ++ merge_loop max_gap max_duration rest [] cur.
Proof.
  revert merged cur. induction rest as [|u rest IH]; intros merged cur; simpl.
  - destruct cur; [apply emit_app | by rewrite app_nil_r].
  - destruct cur as [c|].
    + destruct (degenerate u); [apply IH|].
      destruct (can_merge max_gap max_duration c u); [apply IH|].
      rewrite IH, (IH (emit [] c)), (emit_app merged). by rewrite <- app_assoc.
    + destruct (degenerate u); apply IH.
Qed.

Lemma covers_singleton u : covers u [u].
Proof.
  split_and!; [by exists u | by exists u | by constructor].
Qed.

Lemma covers_absorb cur u g :
  covers cur g -> speaker u = speaker cur -> covers (absorb cur u) (g ++ [u]).
Proof.
  intros ((first & Hhead & Hstart) & _ & Hall) Hspk. split_and!.
  - exists first. split; [|done]. destruct g; [done | by simpl in *].
  - exists u. split; [apply last_snoc | done].
  - apply Forall_app. split; [done | by constructor].
Qed.

Lemma joins_snoc cur others u :
  joins max_gap max_duration cur others ->
  merge_conditions max_gap max_duration (fold_left absorb others cur) u ->
  joins max_gap max_duration cur (others ++ [u]).
Proof.
  revert cur. induction others as [|v others IH]; intros cur; simpl.
  - by intros _ Hu.
  - intros [Hv Hj] Hu. split; [done|]. by apply IH.
Qed.

(** The cue of a run starts with the first utterance of the run, ends with
    its last and has the speaker of each. *)
Lemma joins_covers cur g others :
  covers cur g -> joins max_gap max_duration cur others ->
  covers (fold_left absorb others cur) (g ++ others).
Proof.
  revert cur g. induction others as [|u others IH]; intros cur g Hc; simpl.
  - intros _. by rewrite app_nil_r.
  - intros [(Hspk & _) Hj]. rewrite cons_middle, app_assoc.
    apply IH; [|done]. by apply covers_absorb.
Qed.

(** From the cue of the run [first :: others] on, the pass extends this run
    by the utterances that join it, closes it at the first one that does
    not, and goes on in the same way. *)
Lemma merge_loop_runs rest first others :
  joins max_gap max_duration first others ->
  exists others' runs,
    concat (run_list <$> ((first, others ++ others') :: runs))
    = first :: others ++ filter live rest
    /\ Forall (fun r => joins max_gap max_duration r.1 r.2)
         ((first, others ++ others') :: runs)
    /\ closed_runs max_gap max_duration ((first, others ++ others') :: runs)
    /\ merge_loop max_gap max_duration rest [] (Some (run_cue (first, others)))
       = filter live (run_cue <$> ((first, others ++ others') :: runs)).
Proof.
  revert first others. induction rest as [|u rest IH]; intros first others Hj.
  - exists [], []. rewrite !app_nil_r. cbn [fmap list_fmap concat run_list fst snd].
    rewrite !app_nil_r. split_and!; [done | by constructor | done |].
    apply emit_filter.
  - cbn [merge_loop]. destruct (degenerate u) eqn:Hu.
    { rewrite filter_cons_False by (unfold live; congruence). by apply IH. }
    rewrite filter_cons_True by done.
    destruct (can_merge max_gap max_duration (run_cue (first, others)) u) eqn:Hm.
    + apply can_merge_iff in Hm.
      destruct (IH first (others ++ [u]) (joins_snoc _ _ _ Hj Hm))
        as (others' & runs & Hcat & Hjoin & Hclosed & Hrun).
      exists (u :: others'), runs.
      rewrite (cons_middle u others others'), app_assoc.
      split_and!; [| done | done |].
      * rewrite Hcat. by rewrite <- app_assoc.
      * rewrite <- Hrun. unfold run_cue. simpl. by rewrite fold_left_app.
    + destruct (IH u [] I) as (others' & runs & Hcat & Hjoin & Hclosed & Hrun).
      exists [], ((u, others') :: runs). rewrite app_nil_r.
      change ([] ++ others') with others' in Hcat, Hjoin, Hclosed, Hrun.
      change (u :: [] ++ filter live rest) with (u :: filter live rest) in Hcat.
      split_and!.
      * rewrite fmap_cons. cbn [concat]. by rewrite Hcat.
      * by constructor.
      * split; [|done]. cbn [fst]. rewrite <- can_merge_iff. congruence.
      * rewrite merge_loop_app. change (run_cue (u, [])) with u in Hrun.
        rewrite Hrun, emit_filter. by rewrite <- filter_app.
Qed.

(** The pass from its start: the utterances that have a duration are cut
    into runs, and a cue is emitted for each. *)
Lemma merge_segments_runs sentences :
  exists runs,
    concat (run_list <$> runs) = filter live sentences
    /\ Forall (fun r => joins max_gap max_duration r.1 r.2) runs
    /\ closed_runs max_gap max_duration runs
    /\ merge_segments sentences max_gap max_duration
       = filter live (run_cue <$> runs).
Proof.
  unfold merge_segments. induction sentences as [|u rest IH].
  - by exists [].
  - cbn [merge_loop]. destruct (degenerate u) eqn:Hu.
    { by rewrite filter_cons_False by (unfold live; congruence). }
    rewrite filter_cons_True by done.
    destruct (merge_loop_runs rest u [] I)
      as (others' & runs & Hcat & Hjoin & Hclosed & Hrun).
    by exists ((u, [] ++ others') :: runs).
Qed.

Lemma StronglySorted_filter {A} (R : relation A) (P : A -> Prop)
    `{forall x, Decision (P x)} (l : list A) :
  StronglySorted R l -> StronglySorted R (filter P l).
Proof.
  induction 1 as [|x l Hl IH Hx]; [constructor|].
  rewrite filter_cons. destruct (decide (P x)); [|done].
  constructor; [done|]. rewrite Forall_forall in Hx. apply Forall_forall.
  intros y [_ Hy]%list_elem_of_filter. by apply Hx.
Qed.

(** On a chronological transcript every run ends after it starts. *)
Lemma chronological_run_live (runs : list cue_run) sentences :
  chronological sentences ->
  concat (run_list <$> runs) = filter live sentences ->
  Forall (fun r => joins max_gap max_duration r.1 r.2) runs ->
  Forall live (run_cue <$> runs).
Proof.
  intros [Hle Hsorted] Hcat Hjoin.
  assert (Hlive : Forall (fun s => (start_time s < end_time s)%Q)
                    (concat (run_list <$> runs))).
  { rewrite Hcat. apply Forall_forall. intros s [Hs Hin]%list_elem_of_filter.
    rewrite Forall_forall in Hle. specialize (Hle s Hin).
    unfold live, degenerate in Hs. apply Qle_lt_or_eq in Hle as [Hlt | Heq]; [done|].
    symmetry in Heq. apply Qeq_bool_iff in Heq. congruence. }
  pose proof (StronglySorted_filter _ live _ Hsorted) as Hs.
  rewrite <- Hcat in Hs. clear Hcat Hle Hsorted.
  induction Hjoin as [|[first others] runs Hj Hjoin IH]; [constructor|].
  rewrite fmap_cons in Hlive, Hs. cbn [concat] in Hlive, Hs.
  apply Forall_app in Hlive as [Hlive1 Hlive2].
  pose proof (StronglySorted_app_1_l _ _ _ Hs) as Hs1.
  apply StronglySorted_app_1_r in Hs.
  rewrite fmap_cons. constructor; [|by apply IH].
  destruct (joins_covers first [first] others (covers_singleton first) Hj)
    as ((f & [= <-] & Hstart) & (final & Hlast & Hend) & _).
  unfold live, degenerate, run_cue. cbn [run_list fst snd] in *.
  apply not_true_is_false. intros Heq%Qeq_bool_iff.
  rewrite Hstart, Hend in Heq.
  assert (Hfinal : final ∈ first :: others) by (by apply last_Some_elem_of).
  rewrite Forall_forall in Hlive1. pose proof (Hlive1 final Hfinal) as Hlt.
  apply StronglySorted_inv in Hs1 as [_ Hfirst].
  apply elem_of_cons in Hfinal as [-> | Hin]; [clear -Heq Hlt; lra|].
  rewrite Forall_forall in Hfirst. specialize (Hfirst final Hin).
  cbn [fst] in Hfirst. clear -Heq Hlt Hfirst. lra.
Qed.

(** A change of speaker between two neighbours that have a duration cuts
    the pass in two. *)
Lemma merge_loop_cut l1 a b l2 merged (cur : option Sentence) :
  live a -> live b -> speaker a <> speaker b ->
  merge_loop max_gap max_duration (l1 ++ a :: b :: l2) merged cur
  = merge_loop max_gap max_duration (l1 ++ [a]) merged cur
    ++ merge_loop max_gap max_duration (b :: l2) [] None.
Proof.
  intros Ha Hb Hne. unfold live in Ha, Hb.
  assert (Hab : forall c, speaker c = speaker a ->
                  can_merge max_gap max_duration c b = false).
  { intros c Hc. apply not_true_is_false. rewrite can_merge_iff.
    intros (Hspk & _). congruence. }
  revert merged cur. induction l1 as [|x l1 IH]; intros merged cur.
  - cbn [app merge_loop]. rewrite Ha, Hb. destruct cur as [c|].
    + destruct (can_merge max_gap max_duration c a) eqn:Hca.
      * apply can_merge_iff in Hca as (Hspk & _).
        rewrite Hab by (simpl; congruence). apply merge_loop_app.
      * rewrite Hab by done. apply merge_loop_app.
    + rewrite Hab by done. apply merge_loop_app.
  - cbn [app merge_loop]. fold (l1 ++ a :: b :: l2) (l1 ++ [a]).
    destruct cur as [c|].
    + destruct (degenerate x); [apply IH|].
      destruct (can_merge max_gap max_duration c x); apply IH.
    + destruct (degenerate x); apply IH.
Qed.

(** C3: the merger cuts the utterances that have a duration into runs of
    consecutive utterances and emits the cue of each run.  In a run every
    utterance after the first met the three conditions against the cue open
    when it came, and the utterance that opens the next run did not meet
    them against the cue just closed: an utterance is merged exactly when
    the three conditions hold.  The cue of a run starts with its first
    utterance, ends with its last, and every utterance of the run has the
    speaker of the cue.  No cue of zero duration is emitted, and on a
    chronological transcript every run has a cue.  Two neighbours with
    different speakers always end in different cues, whatever the gap and
    duration limits. *)
Theorem merge_segments_respects_speakers :
  (forall sentences,
      exists runs,
        concat (run_list <$> runs) = filter live sentences
        /\ Forall (fun r => joins max_gap max_duration r.1 r.2) runs
        /\ closed_runs max_gap max_duration runs
        /\ Forall (fun r => covers (run_cue r) (run_list r)) runs
        /\ merge_segments sentences max_gap max_duration
           = filter live (run_cue <$> runs)
        /\ (chronological sentences ->
            merge_segments sentences max_gap max_duration = run_cue <$> runs))
  /\ (forall sentences,
        Forall live (merge_segments sentences max_gap max_duration))
  /\ (forall l1 a b l2,
        live a -> live b -> speaker a <> speaker b ->
        merge_segments (l1 ++ a :: b :: l2) max_gap max_duration
        = merge_segments (l1 ++ [a]) max_gap max_duration
          ++ merge_segments (b :: l2) max_gap max_duration).
Proof.
  split_and!.
  - intros sentences.
    destruct (merge_segments_runs sentences) as (runs & Hcat & Hjoin & Hclosed & Hrun).
    exists runs. split_and!; try done.
    + eapply Forall_impl; [exact Hjoin|]. intros [first others] Hj.
      apply (joins_covers first [first] others); [apply covers_singleton | done].
    + intros Hchron. rewrite Hrun.
      pose proof (chronological_run_live runs sentences Hchron Hcat Hjoin) as Hlive.
      clear -Hlive. induction Hlive as [|c cs Hc _ IH]; [done|].
      by rewrite filter_cons_True, IH.
  - intros sentences.
    destruct (merge_segments_runs sentences) as (runs & _ & _ & _ & ->).
    apply Forall_forall. by intros s [Hs _]%list_elem_of_filter.
  - intros l1 a b l2 Ha Hb Hne. unfold merge_segments. by apply merge_loop_cut.
Qed.
End Merger.

(** ** Time model *)

Section TimeModel.

Lemma isdigit_elem c : isdigit c = true -> c ∈ digit_chars.
Proof.
  destruct c as [[] [] [] [] [] [] [] []]; intros H; vm_compute in H;
    try discriminate H; clear H;
    unfold digit_chars; simpl; rewrite !elem_of_cons; tauto.
Qed.

Lemma format_2_digits c1 c2 :
  isdigit c1 = true -> isdigit c2 = true ->
  format_0d 2 (Z_of_digits [c1; c2]) = [c1; c2]
  /\ 0 <= Z_of_digits [c1; c2] <= 99.
Proof.
  intros H1%isdigit_elem H2%isdigit_elem.
  assert (Hall : Forall (fun c1 => Forall (fun c2 =>
            format_0d 2 (Z_of_digits [c1; c2]) = [c1; c2]
            /\ 0 <= Z_of_digits [c1; c2] <= 99) digit_chars) digit_chars)
    by compute_done.
  rewrite Forall_forall in Hall. specialize (Hall _ H1).
  rewrite Forall_forall in Hall. exact (Hall _ H2).
Qed.

Lemma format_3_digits c1 c2 c3 :
  isdigit c1 = true -> isdigit c2 = true -> isdigit c3 = true ->
  format_0d 3 (Z_of_digits [c1; c2; c3]) = [c1; c2; c3]
  /\ 0 <= Z_of_digits [c1; c2; c3] <= 999.
Proof.
  intros H1%isdigit_elem H2%isdigit_elem H3%isdigit_elem.
  assert (Hall : Forall (fun c1 => Forall (fun c2 => Forall (fun c3 =>
            format_0d 3 (Z_of_digits [c1; c2; c3]) = [c1; c2; c3]
            /\ 0 <= Z_of_digits [c1; c2; c3] <= 999)
            digit_chars) digit_chars) digit_chars)
    by compute_done.
  rewrite Forall_forall in Hall. specialize (Hall _ H1).
  rewrite Forall_forall in Hall. specialize (Hall _ H2).
  rewrite Forall_forall in Hall. exact (Hall _ H3).
Qed.

Lemma Qfloor_millis (a b : Z) :
  Qfloor ((inject_Z a + inject_Z b / 1000) * 1000) = a * 1000 + b.
Proof.
  rewrite <- (Qfloor_Z (a * 1000 + b)). apply Qfloor_comp.
  rewrite inject_Z_plus, inject_Z_mult. field.
Qed.

Lemma split_millis (a ms : Z) :
  0 <= ms <= 999 ->
  (a * 1000 + ms) mod 1000 = ms /\ (a * 1000 + ms) / 1000 = a.
Proof.
  intros Hms. split.
  - rewrite Z.add_comm, Z.mod_add by lia. apply Z.mod_small. lia.
  - rewrite Z.div_add_l by lia. rewrite Z.div_small; lia.
Qed.

Lemma split_seconds (h m sec : Z) :
  0 <= m <= 59 -> 0 <= sec <= 59 ->
  let a := h * 3600 + m * 60 + sec in
  a / 3600 = h /\ a / 60 mod 60 = m /\ a mod 60 = sec.
Proof.
  intros Hm Hs a. subst a. split_and!.
  - replace (h * 3600 + m * 60 + sec) with (h * 3600 + (m * 60 + sec)) by ring.
    rewrite Z.div_add_l by lia. rewrite Z.div_small; lia.
  - replace (h * 3600 + m * 60 + sec) with ((h * 60 + m) * 60 + sec) by ring.
    rewrite Z.div_add_l by lia. rewrite (Z.div_small sec) by lia.
    rewrite Z.add_0_r, Z.add_comm, Z.mod_add by lia. apply Z.mod_small; lia.
  - replace (h * 3600 + m * 60 + sec) with (sec + (h * 60 + m) * 60) by ring.
    rewrite Z.mod_add by lia. apply Z.mod_small; lia.
Qed.

(** The text of an offset given by its four fields. *)
Lemma seconds_to_srt_time_fields (h m sec ms : Z) :
  0 <= m <= 59 -> 0 <= sec <= 59 -> 0 <= ms <= 999 ->
  _seconds_to_srt_time (inject_Z (h * 3600 + m * 60 + sec) + inject_Z ms / 1000)
  = format_0d 2 h ++ lit ":" ++ format_0d 2 m ++ lit ":" ++ format_0d 2 sec
    ++ lit "," ++ format_0d 3 ms.
Proof.
  intros Hm Hs Hms. unfold _seconds_to_srt_time.
  rewrite Qfloor_millis.
  destruct (split_millis (h * 3600 + m * 60 + sec) ms Hms) as [-> ->].
  destruct (split_seconds h m sec Hm Hs) as (-> & -> & ->). reflexivity.
Qed.

Lemma eqc_eq a b : eqc a b = true <-> a = b.
Proof. apply Ascii.eqb_eq. Qed.

(** C8: every well-formed timestamp parses, and formatting the offset
    parsed gives the timestamp back, character for character. *)
Theorem timestamp_round_trip (s : str) :
  well_formed_timestamp s ->
  exists t, _srt_time_to_seconds s = Ok t /\ _seconds_to_srt_time t = s.
Proof.
  intros (h1 & h2 & m1 & m2 & s1 & s2 & k1 & k2 & k3 & -> & Hd & Hm & Hs).
  repeat match goal with
         | H : Forall _ (_ :: _) |- _ => apply Forall_cons in H as [? H]
         end.
  destruct (format_2_digits h1 h2) as [Hh Hhr]; [done..|].
  destruct (format_2_digits m1 m2) as [Hmm Hmr]; [done..|].
  destruct (format_2_digits s1 s2) as [Hss Hsr]; [done..|].
  destruct (format_3_digits k1 k2 k3) as [Hkk Hkr]; [done..|].
  eexists. split.
  - cbn [_srt_time_to_seconds lit list_ascii_of_string app forallb].
    repeat match goal with H : isdigit _ = true |- _ => rewrite H; clear H end.
    cbn [andb eqc]. rewrite !Ascii.eqb_refl. cbn [andb].
    rewrite (proj2 (Z.leb_le _ _) Hm), (proj2 (Z.leb_le _ _) Hs). reflexivity.
  - rewrite seconds_to_srt_time_fields by lia.
    by rewrite Hh, Hmm, Hss, Hkk.
Qed.

Lemma timestamp_round_trip_witness :
  exists t, _srt_time_to_seconds (lit "01:02:03,004") = Ok t
            /\ _seconds_to_srt_time t = lit "01:02:03,004".
Proof.
  apply timestamp_round_trip.
  exists "0"%char, "1"%char, "0"%char, "2"%char, "0"%char, "3"%char,
         "0"%char, "0"%char, "4"%char.
  split_and!; [reflexivity | by repeat constructor | by vm_compute..].
Defined.
End TimeModel.

(** ** Serializer: cue numbering *)

(** An utterance whose text is empty or blank emits nothing, and the
    running index moves on all the same. *)
Lemma srt_loop_skips_blank include_speaker i sentence rest srt_content :
  strip (text sentence) = [] ->
  srt_loop include_speaker i (sentence :: rest) srt_content
  = srt_loop include_speaker (i + 1) rest srt_content.
Proof. intros H. simpl. by rewrite H. Qed.

(** C4 at the failing input: the only cue emitted for a blank utterance
    followed by one with text carries the index 2, not 1. *)
Theorem srt_index_gap :
  srt_loop false 1 blank_then_text []
  = [lit "2"; lit "00:00:01,000 --> 00:00:02,000"; lit "a"; []].
Proof. by vm_compute. Qed.

(** ** Parser: totality and resilience *)

(** The time parser raises nothing but the error the handler catches. *)
Lemma srt_time_raises s e : _srt_time_to_seconds s = Raise e -> e = ValueError.
Proof.
  unfold _srt_time_to_seconds.
  repeat (destruct s as [|? s]; [by intros [= <-]|]).
  destruct s; [|by intros [= <-]].
  repeat case_match; congruence.
Qed.

Lemma parse_block_total block :
  exists o, parse_block block = Ok o
    /\ forall s, o = Some s -> duration s = Some (end_time s - start_time s)%Q.
Proof.
  unfold parse_block.
  destruct (length _ <? 3)%nat; [by exists None|].
  destruct (split nl (strip block)) as [|l0 [|l1 lines]]; simpl;
    [by exists None | destruct (int l0); by exists None |].
  destruct (int l0) as [idx|]; simpl; [|by exists None].
  destruct (time_match l1) as [[g1 g2]|]; simpl; [|by exists None].
  destruct (_srt_time_to_seconds g1) as [start|e1] eqn:E1; simpl.
  2:{ apply srt_time_raises in E1 as ->. by exists None. }
  destruct (_srt_time_to_seconds g2) as [stop|e2] eqn:E2; simpl.
  2:{ apply srt_time_raises in E2 as ->. by exists None. }
  destruct (speaker_match _) as [[spk txt]|]; simpl;
    (eexists; split; [reflexivity|]; by intros s [= <-]).
Qed.

Lemma block_cue_ok block : parse_block block = Ok (block_cue block).
Proof.
  unfold block_cue. by destruct (parse_block_total block) as (o & -> & _).
Qed.

Lemma parse_blocks_omap bs acc :
  parse_blocks bs acc = Ok (acc ++ omap block_cue bs).
Proof.
  revert acc. induction bs as [|b bs IH]; intros acc; simpl.
  - by rewrite app_nil_r.
  - rewrite block_cue_ok. simpl. rewrite IH.
    destruct (block_cue b); simpl; [by rewrite <- app_assoc | done].
Qed.

Lemma block_cue_short block :
  (length (block_lines block) < 3)%nat -> block_cue block = None.
Proof.
  intros H. unfold block_cue, parse_block. fold (block_lines block).
  by rewrite (proj2 (Nat.ltb_lt _ _) H).
Qed.

Lemma block_cue_bad_index block :
  int (index_line block) = None -> block_cue block = None.
Proof.
  unfold index_line, block_cue, parse_block. fold (block_lines block).
  destruct (length _ <? 3)%nat; [done|].
  destruct (block_lines block) as [|l0 lines]; simpl; [done|].
  by intros ->.
Qed.

Lemma block_cue_bad_timestamp block :
  time_match (timestamp_line block) = None -> block_cue block = None.
Proof.
  unfold timestamp_line, block_cue, parse_block. fold (block_lines block).
  destruct (length _ <? 3)%nat; [done|].
  destruct (block_lines block) as [|l0 [|l1 lines]]; simpl; [done| by destruct (int l0) |].
  intros ->. by destruct (int l0).
Qed.

Lemma omap_block_cue_skip before block after :
  block_cue block = None ->
  omap block_cue (before ++ block :: after) = omap block_cue (before ++ after).
Proof. intros H. rewrite !omap_app. simpl. by rewrite H. Qed.

(** C10: the parser returns a list for every input and raises nothing;
    every cue of the list has the duration [end_time - start_time]; and a
    block whose index line is no integer (the ValueError of line 136) is
    skipped alone: the parse goes on as if the block were not there. *)
Theorem parse_srt_content_total :
  (forall content,
      exists cues,
        _parse_srt_content content = Ok cues
        /\ Forall (fun c => duration c = Some (end_time c - start_time c)%Q) cues)
  /\ (forall before block after acc,
        int (index_line block) = None ->
        parse_blocks (before ++ block :: after) acc
        = parse_blocks (before ++ after) acc).
Proof.
  split.
  - intros content. unfold _parse_srt_content. rewrite parse_blocks_omap. simpl.
    eexists; split; [reflexivity|].
    apply Forall_forall. intros c Hc.
    apply list_elem_of_omap in Hc as (b & _ & Hb).
    destruct (parse_block_total b) as (o & Ho & Hdur).
    apply Hdur. unfold block_cue in Hb. by rewrite Ho in Hb.
  - intros before block after acc Hint.
    rewrite !parse_blocks_omap. f_equal. f_equal.
    apply omap_block_cue_skip. by apply block_cue_bad_index.
Qed.

(** C7, as the code has it: the parse yields, in order, the cues of the
    blocks that yield one, each block being treated on its own; a block of
    fewer than three lines, one whose index line is no integer and one
    whose second line does not start with the timestamp pattern yield none,
    and the other blocks are parsed as if it were not there; the result of
    [parse_srt_file] holds these cues and their number, and nothing else;
    the document of one well-formed cue and one block without a timestamp
    line yields exactly one cue. *)
Theorem parse_srt_resilient :
  (forall content,
      _parse_srt_content content = Ok (omap block_cue (blocks content))
      /\ parse_srt_file content
         = succeed {| pd_sentences := omap block_cue (blocks content);
                      total_count := length (omap block_cue (blocks content)) |})
  /\ (forall block,
        (length (block_lines block) < 3)%nat
        \/ int (index_line block) = None
        \/ time_match (timestamp_line block) = None ->
        block_cue block = None
        /\ forall before after,
            omap block_cue (before ++ block :: after)
            = omap block_cue (before ++ after))
  /\ (exists cue,
        parse_srt_file one_cue_one_broken_doc
        = succeed {| pd_sentences := [cue]; total_count := 1 |}
        /\ text cue = lit "hello").
Proof.
  split_and!.
  - intros content.
    assert (H : _parse_srt_content content = Ok (omap block_cue (blocks content))).
    { unfold _parse_srt_content. by rewrite parse_blocks_omap. }
    split; [done|]. unfold parse_srt_file. by rewrite H.
  - intros block Hbad.
    assert (Hnone : block_cue block = None).
    { destruct Hbad as [H | [H | H]];
        [by apply block_cue_short | by apply block_cue_bad_index
         | by apply block_cue_bad_timestamp]. }
    split; [done|]. intros before after. by apply omap_block_cue_skip.
  - eexists. split; [by vm_compute | reflexivity].
Qed.

(** C7, as stated, fails: the document of one well-formed cue and the
    document that adds a broken block to it parse to the same result, with
    no and with one skipped block; no count of skipped blocks can be read
    off the result. *)
Lemma parse_reports_no_skipped_count : ~ reports_skipped_count.
Proof.
  intros [f Hf].
  assert (Hsame : parse_srt_file one_cue_doc = parse_srt_file one_cue_one_broken_doc)
    by (by vm_compute).
  assert (H0 : skipped_blocks one_cue_doc = 0%nat) by (by vm_compute).
  assert (H1 : skipped_blocks one_cue_one_broken_doc = 1%nat) by (by vm_compute).
  pose proof (Hf one_cue_doc) as Ha. pose proof (Hf one_cue_one_broken_doc) as Hb.
  rewrite Hsame in Ha. congruence.
Qed.

(** ** Codec round trip: strings *)

Section Strings.
Implicit Types (s a b : str) (c : ascii).

Lemma rstrip_app_nonempty a b : rstrip b <> [] -> rstrip (a ++ b) = a ++ rstrip b.
Proof.
  intros Hb. induction a as [|c a IH]; [done|]. simpl. rewrite IH.
  destruct (a ++ rstrip b) eqn:E; [|done].
  apply app_eq_nil in E as [_ E]. done.
Qed.

Lemma ends_ok_app a b : ends_ok b -> ends_ok (a ++ b).
Proof.
  intros [Hfix Hne]. split.
  - rewrite rstrip_app_nonempty; rewrite Hfix; done.
  - intros [_ ?]%app_eq_nil. done.
Qed.

Lemma ends_ok_tail c s : ends_ok (c :: s) -> s <> [] -> ends_ok s.
Proof.
  intros [Hfix _] Hne. split; [|done]. simpl in Hfix.
  destruct (rstrip s) eqn:E.
  - destruct (isspace c); [done|]. injection Hfix as <-. done.
  - by injection Hfix.
Qed.

Lemma ends_ok_single c : ends_ok [c] -> isspace c = false.
Proof. intros [Hfix _]. simpl in Hfix. by destruct (isspace c). Qed.

Lemma rstrip_snoc_space a c : isspace c = true -> rstrip (a ++ [c]) = rstrip a.
Proof.
  intros Hc. induction a as [|x a IH]; simpl; [by rewrite Hc|]. by rewrite IH.
Qed.

Lemma lstrip_nonspace c s : isspace c = false -> lstrip (c :: s) = c :: s.
Proof. intros H. simpl. by rewrite H. Qed.

Lemma lstrip_fixed_head c s : lstrip (c :: s) = c :: s -> isspace c = false.
Proof.
  simpl. destruct (isspace c); [|done]. intros H.
  assert (Hlen : forall t, (length (lstrip t) <= length t)%nat).
  { induction t as [|x t IHt]; simpl; [lia|]. destruct (isspace x); simpl; lia. }
  specialize (Hlen s). rewrite H in Hlen. simpl in Hlen. lia.
Qed.

Lemma sep_tail_app b ctx : ends_ok b -> sep_tail (b ++ ctx) = sep_tail b.
Proof.
  induction b as [|c b IH]; intros Hok; [by destruct Hok|]. simpl.
  destruct (isspace c) eqn:Hc; [|done].
  destruct b as [|c' b'].
  - apply ends_ok_single in Hok. congruence.
  - rewrite IH; [done|]. by eapply ends_ok_tail.
Qed.

Lemma sep_tail_nonspace c s : isspace c = false -> sep_tail (c :: s) = None.
Proof. intros H. simpl. by rewrite H. Qed.

Lemma prepend_cons c B l : l <> [] -> cons_head c (prepend B l) = prepend (c :: B) l.
Proof. by destruct l. Qed.

Lemma re_split_nonnil skip s : re_split skip s <> [].
Proof.
  revert skip. induction s as [|c s IH]; intros skip; simpl; [done|].
  destruct skip; [|apply IH].
  destruct (eqc c nl); [destruct (sep_tail s); [done|] |];
    (specialize (IH 0%nat); by destruct (re_split 0 s)).
Qed.

(** A stretch without blank line goes whole into the piece that the text
    after it starts. *)
Lemma re_split_prepend B ctx :
  ends_ok B -> no_blank_line B = true ->
  re_split 0 (B ++ ctx) = prepend B (re_split 0 ctx).
Proof.
  induction B as [|c B IH]; intros Hok Hnb; [by destruct Hok|].
  simpl in Hnb. apply andb_true_iff in Hnb as [Hc Hnb].
  destruct B as [|c' B'].
  - apply ends_ok_single in Hok. simpl.
    destruct (eqc c nl) eqn:Hnl.
    + apply Ascii.eqb_eq in Hnl as ->. done.
    + pose proof (re_split_nonnil 0 ctx). by destruct (re_split 0 ctx).
  - assert (Hok' : ends_ok (c' :: B')) by by eapply ends_ok_tail.
    change ((c :: c' :: B') ++ ctx) with (c :: ((c' :: B') ++ ctx)).
    cbn [re_split]. rewrite IH by done.
    rewrite sep_tail_app by done.
    destruct (eqc c nl).
    + apply bool_decide_eq_true in Hc. rewrite Hc.
      apply prepend_cons, re_split_nonnil.
    + apply prepend_cons, re_split_nonnil.
Qed.

(** Two newlines before a character that is no whitespace are one
    separator. *)
Lemma re_split_blank_line c r :
  isspace c = false ->
  re_split 0 (nl :: nl :: c :: r) = [] :: re_split 0 (c :: r).
Proof.
  intros Hc. cbn [re_split]. change (eqc nl nl) with true. cbv iota.
  change (sep_tail (nl :: c :: r))
    with (match sep_tail (c :: r) with Some n => Some (S n) | None => Some 1%nat end).
  rewrite sep_tail_nonspace by done. reflexivity.
Qed.

Lemma split_nonnil sep s : split sep s <> [].
Proof.
  induction s as [|c s IH]; simpl; [done|].
  destruct (eqc c sep); [done|]. by destruct (split sep s).
Qed.

Lemma split_no_sep sep a : sep ∉ a -> split sep a = [a].
Proof.
  induction a as [|c a IH]; intros Hnot; [done|]. simpl.
  apply not_elem_of_cons in Hnot as [Hne Hnot].
  destruct (eqc c sep) eqn:E; [apply Ascii.eqb_eq in E; congruence|].
  by rewrite IH.
Qed.

Lemma split_app_sep sep a b :
  sep ∉ a -> split sep (a ++ sep :: b) = a :: split sep b.
Proof.
  induction a as [|c a IH]; intros Hnot; simpl.
  - unfold eqc. by rewrite Ascii.eqb_refl.
  - apply not_elem_of_cons in Hnot as [Hne Hnot].
    destruct (eqc c sep) eqn:E; [apply Ascii.eqb_eq in E; congruence|].
    by rewrite IH.
Qed.

Lemma join_split sep s : join [sep] (split sep s) = s.
Proof.
  induction s as [|c s IH]; [done|]. simpl.
  destruct (eqc c sep) eqn:E.
  - apply Ascii.eqb_eq in E as ->.
    pose proof (split_nonnil sep s).
    destruct (split sep s) eqn:Es; [done|]. simpl in *. by rewrite IH.
  - pose proof (split_nonnil sep s).
    destruct (split sep s) as [|h t] eqn:Es; [done|].
    rewrite <- IH. by destruct t.
Qed.

Lemma span_all (p : ascii -> bool) a b :
  Forall (fun c => p c = true) a ->
  match b with [] => True | c :: _ => p c = false end ->
  span p (a ++ b) = (a, b).
Proof.
  intros Ha Hb. induction Ha as [|c a Hc Ha IH]; simpl.
  - destruct b as [|c b]; [done|]. simpl. by rewrite Hb.
  - by rewrite Hc, IH.
Qed.
End Strings.


(** ** Codec round trip: integers *)

Section Integers.
Implicit Types (s acc : str) (n d : Z).

Lemma digit_char_spec d :
  0 <= d <= 9 ->
  isdigit (digit_char d) = true /\ digit_val (digit_char d) = d.
Proof.
  intros Hd.
  assert (Hin : d ∈ [0; 1; 2; 3; 4; 5; 6; 7; 8; 9]) by (rewrite !elem_of_cons; lia).
  assert (Hall : Forall (fun d => isdigit (digit_char d) = true
                                  /\ digit_val (digit_char d) = d)
                   [0; 1; 2; 3; 4; 5; 6; 7; 8; 9]) by compute_done.
  rewrite Forall_forall in Hall. by apply Hall.
Qed.

Lemma isdigit_plain c :
  isdigit c = true ->
  isspace c = false /\ c <> nl /\ eqc c minus_sign = false
  /\ eqc c plus_sign = false /\ eqc c underscore = false.
Proof.
  intros Hc%isdigit_elem.
  assert (Hall : Forall (fun c => isspace c = false /\ c <> nl
                   /\ eqc c minus_sign = false /\ eqc c plus_sign = false
                   /\ eqc c underscore = false) digit_chars) by compute_done.
  rewrite Forall_forall in Hall. by apply Hall.
Qed.

Lemma digits_fuel_isdigit fuel n acc :
  0 <= n -> Forall (fun c => isdigit c = true) acc ->
  Forall (fun c => isdigit c = true) (digits_fuel fuel n acc).
Proof.
  revert n acc. induction fuel as [|f IH]; intros n acc Hn Hacc; [done|].
  simpl.
  assert (Hd : isdigit (digit_char (n mod 10)) = true).
  { apply digit_char_spec. pose proof (Z.mod_pos_bound n 10). lia. }
  destruct (n <? 10); [by constructor|].
  apply IH; [apply Z.div_pos; lia | by constructor].
Qed.

Lemma digits_fuel_nonnil fuel n acc :
  digits_fuel (S fuel) n acc <> [].
Proof.
  revert n acc. induction fuel as [|f IH]; intros n acc.
  - simpl. by destruct (n <? 10).
  - change (digits_fuel (S (S f)) n acc)
      with (if n <? 10 then digit_char (n mod 10) :: acc
            else digits_fuel (S f) (n / 10) (digit_char (n mod 10) :: acc)).
    destruct (n <? 10); [done | apply IH].
Qed.

Lemma digits_fuel_value fuel n acc :
  0 <= n < 2 ^ Z.of_nat fuel ->
  fold_left (fun a c => 10 * a + digit_val c) (digits_fuel fuel n acc) 0
  = fold_left (fun a c => 10 * a + digit_val c) acc n.
Proof.
  revert n acc. induction fuel as [|f IH]; intros n acc Hn.
  - simpl in *. by replace n with 0 by lia.
  - rewrite Nat2Z.inj_succ, Z.pow_succ_r in Hn by lia.
    cbn [digits_fuel].
    assert (Hd : digit_val (digit_char (n mod 10)) = n mod 10).
    { apply digit_char_spec. pose proof (Z.mod_pos_bound n 10). lia. }
    destruct (n <? 10) eqn:Hlt.
    + apply Z.ltb_lt in Hlt. simpl. rewrite Hd, Z.mod_small by lia.
      by rewrite Z.add_0_l.
    + apply Z.ltb_ge in Hlt. rewrite IH.
      * simpl. rewrite Hd. f_equal. pose proof (Z.div_mod n 10). lia.
      * split; [apply Z.div_pos; lia|].
        apply Z.div_lt_upper_bound; lia.
Qed.

Lemma digits_spec n :
  0 <= n ->
  Forall (fun c => isdigit c = true) (digits n)
  /\ digits n <> []
  /\ Z_of_digits (digits n) = n.
Proof.
  intros Hn. unfold digits. split_and!.
  - by apply digits_fuel_isdigit.
  - apply digits_fuel_nonnil.
  - unfold Z_of_digits. rewrite digits_fuel_value; [done|].
    split; [done|]. rewrite Nat2Z.inj_succ, Z2Nat.id by apply Z.log2_nonneg.
    destruct (decide (n = 0)) as [->|Hne]; [done|].
    apply Z.log2_spec. lia.
Qed.

Lemma strip_plain s :
  Forall (fun c => isspace c = false) s -> strip s = s.
Proof.
  intros Hs. unfold strip.
  assert (Hl : lstrip s = s) by (destruct Hs as [|c s Hc _]; [done | by apply lstrip_nonspace]).
  rewrite Hl. induction Hs as [|c s Hc Hs IH]; [done|]. simpl.
  rewrite IH by (destruct Hs as [|c' s' Hc' _]; [done | by apply lstrip_nonspace]).
  rewrite Hc. by destruct s.
Qed.

Lemma int_body_digits s :
  Forall (fun c => isdigit c = true) s ->
  int_body true s = Some s /\ (s <> [] -> int_body false s = Some s).
Proof.
  induction 1 as [|c s Hc Hs [IH _]]; [done|]. simpl. rewrite Hc, IH. done.
Qed.

(** The index line written by the serializer reads back as the index. *)
Lemma int_str_of_int n : 0 <= n -> int (str_of_int n) = Some n.
Proof.
  intros Hn. unfold str_of_int.
  rewrite (proj2 (Z.ltb_ge _ _) Hn).
  destruct (digits_spec n Hn) as (Hd & Hne & Hval).
  unfold int. rewrite strip_plain.
  2:{ eapply Forall_impl; [exact Hd|]. intros c Hc. by apply isdigit_plain. }
  destruct (digits n) as [|c r] eqn:E; [done|].
  pose proof (Forall_inv Hd) as Hc. apply isdigit_plain in Hc as (_ & _ & -> & -> & _).
  destruct (int_body_digits (c :: r) Hd) as [_ ->]; [|done]. simpl. by rewrite Hval.
Qed.

Lemma str_of_int_plain n :
  0 <= n ->
  (nl ∉ str_of_int n)
  /\ exists c r, str_of_int n = c :: r /\ isspace c = false.
Proof.
  intros Hn. unfold str_of_int. rewrite (proj2 (Z.ltb_ge _ _) Hn).
  destruct (digits_spec n Hn) as (Hd & Hne & _). split.
  - intros Hin. rewrite Forall_forall in Hd. apply Hd in Hin.
    by apply isdigit_plain in Hin as (_ & ? & _).
  - destruct (digits n) as [|c r]; [done|]. exists c, r. split; [done|].
    pose proof (Forall_inv Hd) as Hc. by apply isdigit_plain in Hc as (? & _).
Qed.
End Integers.


(** ** Codec round trip: timestamps *)

Section Timestamps.

Lemma format_2_range n :
  0 <= n <= 99 ->
  exists c1 c2,
    format_0d 2 n = [c1; c2] /\ isdigit c1 = true /\ isdigit c2 = true
    /\ Z_of_digits [c1; c2] = n.
Proof.
  intros Hn. exists (digit_char (n / 10)), (digit_char (n mod 10)).
  assert (Hin : n ∈ (Z.of_nat <$> seq 0 100)).
  { apply (list_elem_of_fmap_2' _ _ (Z.to_nat n)); [|lia].
    apply elem_of_seq. lia. }
  assert (Hall : Forall (fun n =>
      format_0d 2 n = [digit_char (n / 10); digit_char (n mod 10)]
      /\ isdigit (digit_char (n / 10)) = true
      /\ isdigit (digit_char (n mod 10)) = true
      /\ Z_of_digits [digit_char (n / 10); digit_char (n mod 10)] = n)
      (Z.of_nat <$> seq 0 100)) by compute_done.
  rewrite Forall_forall in Hall. by apply Hall.
Qed.

Lemma format_3_range n :
  0 <= n <= 999 ->
  exists c1 c2 c3,
    format_0d 3 n = [c1; c2; c3] /\ isdigit c1 = true /\ isdigit c2 = true
    /\ isdigit c3 = true /\ Z_of_digits [c1; c2; c3] = n.
Proof.
  intros Hn.
  exists (digit_char (n / 100)), (digit_char (n / 10 mod 10)), (digit_char (n mod 10)).
  assert (Hin : n ∈ (Z.of_nat <$> seq 0 1000)).
  { apply (list_elem_of_fmap_2' _ _ (Z.to_nat n)); [|lia].
    apply elem_of_seq. lia. }
  assert (Hall : Forall (fun n =>
      format_0d 3 n = [digit_char (n / 100); digit_char (n / 10 mod 10);
                       digit_char (n mod 10)]
      /\ isdigit (digit_char (n / 100)) = true
      /\ isdigit (digit_char (n / 10 mod 10)) = true
      /\ isdigit (digit_char (n mod 10)) = true
      /\ Z_of_digits [digit_char (n / 100); digit_char (n / 10 mod 10);
                      digit_char (n mod 10)] = n)
      (Z.of_nat <$> seq 0 1000)) by compute_done.
  rewrite Forall_forall in Hall. by apply Hall.
Qed.

(** The offset a timestamp of digits denotes. *)
Lemma srt_time_to_seconds_fields h1 h2 m1 m2 s1 s2 k1 k2 k3 :
  Forall (fun c => isdigit c = true) [h1; h2; m1; m2; s1; s2; k1; k2; k3] ->
  Z_of_digits [m1; m2] <= 59 -> Z_of_digits [s1; s2] <= 59 ->
  _srt_time_to_seconds
    ([h1; h2] ++ lit ":" ++ [m1; m2] ++ lit ":" ++ [s1; s2] ++ lit "," ++ [k1; k2; k3])
  = Ok (inject_Z (Z_of_digits [h1; h2] * 3600 + Z_of_digits [m1; m2] * 60
                  + Z_of_digits [s1; s2])
        + inject_Z (Z_of_digits [k1; k2; k3]) / 1000)%Q.
Proof.
  intros Hd Hm Hs.
  repeat match goal with
         | H : Forall _ (_ :: _) |- _ => apply Forall_cons in H as [? H]
         end.
  cbn [_srt_time_to_seconds lit list_ascii_of_string app forallb].
  repeat match goal with H : isdigit _ = true |- _ => rewrite H; clear H end.
  cbn [andb eqc]. rewrite !Ascii.eqb_refl. cbn [andb].
  by rewrite (proj2 (Z.leb_le _ _) Hm), (proj2 (Z.leb_le _ _) Hs).
Qed.

Lemma split_hms q :
  0 <= q < 360000 ->
  0 <= q / 3600 <= 99 /\ 0 <= q / 60 mod 60 <= 59 /\ 0 <= q mod 60 <= 59
  /\ q / 3600 * 3600 + q / 60 mod 60 * 60 + q mod 60 = q.
Proof.
  intros Hq.
  pose proof (Z.div_mod q 60). pose proof (Z.mod_pos_bound q 60).
  pose proof (Z.div_mod (q / 60) 60). pose proof (Z.mod_pos_bound (q / 60) 60).
  assert (Hdd : q / 3600 = q / 60 / 60) by (rewrite Z.div_div by lia; done).
  rewrite Hdd.
  assert (0 <= q / 60 / 60 < 100).
  { split; [repeat apply Z.div_pos; lia|].
    rewrite <- Hdd. apply Z.div_lt_upper_bound; lia. }
  lia.
Qed.

(** A whole number of milliseconds goes through the timestamp text
    unchanged. *)
Lemma time_round_trip t :
  whole_millis t ->
  exists ts t',
    _seconds_to_srt_time t = ts
    /\ is_timestamp ts = true
    /\ _srt_time_to_seconds ts = Ok t'
    /\ (t' == t)%Q.
Proof.
  intros (ms & Hms & Ht).
  assert (Hfl : Qfloor (t * 1000) = ms).
  { rewrite <- (Qfloor_Z ms). apply Qfloor_comp. rewrite Ht. field. }
  assert (Hdm : ms = 1000 * (ms / 1000) + ms mod 1000) by (apply Z.div_mod; lia).
  assert (Hmb : 0 <= ms mod 1000 < 1000) by (apply Z.mod_pos_bound; lia).
  assert (Hq : 0 <= ms / 1000 < 360000).
  { split; [apply Z.div_pos; lia | apply Z.div_lt_upper_bound; lia]. }
  destruct (split_hms _ Hq) as (Hh & Hm & Hs & Hsum).
  destruct (format_2_range (ms / 1000 / 3600)) as (h1 & h2 & Eh & ? & ? & Vh); [lia|].
  destruct (format_2_range (ms / 1000 / 60 mod 60)) as (m1 & m2 & Em & ? & ? & Vm); [lia|].
  destruct (format_2_range (ms / 1000 mod 60)) as (s1 & s2 & Es & ? & ? & Vs); [lia|].
  destruct (format_3_range (ms mod 1000)) as (k1 & k2 & k3 & Ek & ? & ? & ? & Vk); [lia|].
  eexists. eexists. split; [reflexivity|].
  unfold _seconds_to_srt_time. rewrite Hfl, Eh, Em, Es, Ek.
  split_and!.
  - cbn [is_timestamp lit list_ascii_of_string app forallb].
    repeat match goal with H : isdigit _ = true |- _ => rewrite H; clear H end.
    reflexivity.
  - rewrite srt_time_to_seconds_fields; [reflexivity | | lia | lia].
    by repeat constructor.
  - rewrite Vh, Vm, Vs, Vk, Hsum, Ht.
    assert (Hinj : (inject_Z ms
                    == 1000 * inject_Z (ms / 1000) + inject_Z (ms mod 1000))%Q).
    { change 1000%Q with (inject_Z 1000).
      by rewrite <- inject_Z_mult, <- inject_Z_plus, <- Hdm. }
    rewrite Hinj. field.
Qed.

Lemma is_timestamp_shape ts :
  is_timestamp ts = true ->
  length ts = 12%nat /\ (nl ∉ ts)
  /\ exists c r, ts = c :: r /\ isspace c = false.
Proof.
  unfold is_timestamp.
  do 12 (destruct ts as [|? ts]; [done|]). destruct ts; [|done].
  cbn [forallb]. rewrite !andb_true_iff, !eqc_eq.
  intros H. destruct_and!. subst. split_and!; [done | |].
  - repeat match goal with
           | H : isdigit _ = true |- _ => apply isdigit_plain in H as (_ & H & _)
           end.
    rewrite !elem_of_cons, elem_of_nil.
    intros Hin. destruct_or!; try done; by vm_compute in Hin.
  - eexists _, _. split; [reflexivity|].
    match goal with H : isdigit a = true |- _ => by apply isdigit_plain in H as (? & _) end.
Qed.

Lemma time_match_line ts1 ts2 :
  is_timestamp ts1 = true -> is_timestamp ts2 = true ->
  time_match (ts1 ++ lit " --> " ++ ts2) = Some (ts1, ts2).
Proof.
  intros H1 H2. unfold time_match.
  pose proof (is_timestamp_shape _ H1) as (L1 & _).
  pose proof (is_timestamp_shape _ H2) as (L2 & _).
  assert (E1 : take 12 (ts1 ++ lit " --> " ++ ts2) = ts1)
    by (rewrite take_app_length'; done).
  assert (E2 : drop 12 (ts1 ++ lit " --> " ++ ts2) = lit " --> " ++ ts2)
    by (rewrite drop_app_length'; done).
  assert (E3 : drop 17 (ts1 ++ lit " --> " ++ ts2) = ts2).
  { change 17%nat with (12 + 5)%nat. rewrite <- drop_drop, E2. done. }
  rewrite E1, E2, E3. rewrite (take_ge ts2) by lia.
  rewrite H1, H2. done.
Qed.
End Timestamps.


(** ** Codec round trip: the text written *)

Section Written.
Implicit Types (u : Sentence) (T : list Sentence) (i : Z).

Lemma join_cons sep (x : str) (l : list str) :
  l <> [] -> join sep (x :: l) = x ++ sep ++ join sep l.
Proof. by destruct l. Qed.

Lemma srt_loop_app include_speaker i T acc :
  srt_loop include_speaker i T acc = acc ++ srt_loop include_speaker i T [].
Proof.
  revert i acc. induction T as [|u T IH]; intros i acc; simpl.
  - by rewrite app_nil_r.
  - destruct (strip (text u)); [apply IH|].
    rewrite (IH _ (acc ++ _)), (IH _ (_ :: _)). by rewrite <- app_assoc.
Qed.

Lemma strip_trimmed (s : str) : lstrip s = s -> rstrip s = s -> strip s = s.
Proof. unfold strip. by intros -> ->. Qed.

Lemma srt_loop_cons i u T :
  round_trips u ->
  srt_loop true i (u :: T) []
  = [str_of_int i; time_line u; tagged u; []] ++ srt_loop true (i + 1) T [].
Proof.
  intros Hu. cbn [srt_loop].
  rewrite strip_trimmed by apply Hu.
  pose proof (rt_nonempty u Hu) as Hne.
  unfold tagged, time_line.
  destruct (text u) as [|c t] eqn:Et; [done|].
  rewrite srt_loop_app. by destruct (speaker u).
Qed.

(** The text written for a transcript: its blocks, two newlines between
    them and one at the end. *)
Lemma srt_text_blocks i T :
  Forall round_trips T -> T <> [] ->
  join [nl] (srt_loop true i T []) = join [nl; nl] (cue_blocks i T) ++ [nl].
Proof.
  intros HT. revert i. induction HT as [|u T Hu HT IH]; intros i Hne; [done|].
  rewrite srt_loop_cons by done. cbn [cue_blocks].
  destruct T as [|u' T'].
  - simpl. unfold cue_block. by repeat (rewrite <- app_assoc; simpl).
  - rewrite join_cons by done.
    cbn [app]. rewrite !join_cons by (try done; rewrite srt_loop_cons by (by inversion HT); done).
    rewrite IH by done. unfold cue_block. simpl.
    by repeat (rewrite <- app_assoc; simpl).
Qed.
End Written.


(** ** Codec round trip: one block *)

Section Block.
Implicit Types (u : Sentence) (i : Z) (s a b : str).

Ltac nl_not_in_lit H :=
  unfold lit, nl in H; simpl in H;
  rewrite ?elem_of_cons, ?elem_of_nil in H;
  destruct_or?; done || discriminate H.

Lemma no_blank_line_app_plain a b :
  nl ∉ a -> no_blank_line (a ++ b) = no_blank_line b.
Proof.
  induction a as [|c a IH]; intros Hnot; [done|]. simpl.
  apply not_elem_of_cons in Hnot as [Hne Hnot].
  destruct (eqc c nl) eqn:E; [apply eqc_eq in E; congruence|].
  by rewrite IH.
Qed.

Lemma no_blank_line_nl c s :
  isspace c = false -> no_blank_line (nl :: c :: s) = no_blank_line (c :: s).
Proof.
  intros Hc. cbn [no_blank_line]. change (eqc nl nl) with true. cbv iota.
  by rewrite sep_tail_nonspace, bool_decide_eq_true_2.
Qed.

Lemma tagged_head u :
  round_trips u -> exists c r, tagged u = c :: r /\ isspace c = false.
Proof.
  intros Hu. unfold tagged. destruct (speaker u).
  - pose proof (rt_nonempty u Hu). pose proof (rt_no_leading_space u Hu) as Hl.
    destruct (text u) as [|c r]; [done|]. exists c, r. split; [done|].
    by apply lstrip_fixed_head in Hl.
  - eexists _, _. split; [reflexivity | done].
Qed.

Lemma text_ends_ok u : round_trips u -> ends_ok (text u).
Proof. intros Hu. split; apply Hu. Qed.

Lemma tagged_ends_ok u : round_trips u -> ends_ok (tagged u).
Proof.
  intros Hu. unfold tagged. destruct (speaker u); [by apply text_ends_ok|].
  rewrite !app_assoc. by apply ends_ok_app, text_ends_ok.
Qed.

Lemma tagged_no_blank_line u : round_trips u -> no_blank_line (tagged u) = true.
Proof.
  intros Hu. unfold tagged. pose proof (rt_speaker_plain u Hu) as Hs.
  destruct (speaker u) as [|c sp] eqn:E; [apply Hu|].
  rewrite !app_assoc. rewrite no_blank_line_app_plain; [apply Hu|].
  rewrite !elem_of_app. intros [[Hin | Hin] | Hin].
  - nl_not_in_lit Hin.
  - rewrite Forall_forall in Hs. by destruct (Hs _ Hin).
  - nl_not_in_lit Hin.
Qed.

Lemma time_line_spec u :
  round_trips u ->
  exists ts1 ts2 t1 t2,
    time_line u = ts1 ++ lit " --> " ++ ts2
    /\ is_timestamp ts1 = true /\ is_timestamp ts2 = true
    /\ _srt_time_to_seconds ts1 = Ok t1 /\ (t1 == start_time u)%Q
    /\ _srt_time_to_seconds ts2 = Ok t2 /\ (t2 == end_time u)%Q.
Proof.
  intros Hu.
  destruct (time_round_trip _ (rt_start u Hu)) as (ts1 & t1 & E1 & W1 & P1 & Q1).
  destruct (time_round_trip _ (rt_end u Hu)) as (ts2 & t2 & E2 & W2 & P2 & Q2).
  exists ts1, ts2, t1, t2. unfold time_line. by rewrite E1, E2.
Qed.

Lemma time_line_plain ts1 ts2 :
  is_timestamp ts1 = true -> is_timestamp ts2 = true ->
  (nl ∉ ts1 ++ lit " --> " ++ ts2)
  /\ exists c r, ts1 ++ lit " --> " ++ ts2 = c :: r /\ isspace c = false.
Proof.
  intros (_ & N1 & c & r & -> & Hc)%is_timestamp_shape (_ & N2 & _)%is_timestamp_shape.
  split.
  - rewrite !elem_of_app. intros [Hin | [Hin | Hin]]; [done | | done].
    nl_not_in_lit Hin.
  - by eexists _, _.
Qed.

(** What the speaker pattern finds in the text line of a cue. *)
Lemma speaker_match_tagged u :
  round_trips u ->
  match speaker_match (tagged u) with
  | Some (s, t) => (s, t)
  | None => ([], tagged u)
  end = (speaker u, text u).
Proof.
  intros Hu. unfold tagged.
  pose proof (rt_tag u Hu) as Htag. pose proof (rt_speaker_plain u Hu) as Hs.
  destruct (speaker u) as [|c sp] eqn:E; [by rewrite Htag|].
  change (lit "[" ++ (c :: sp) ++ lit "] " ++ text u)
    with ("["%char :: (c :: sp) ++ "]"%char :: " "%char :: text u).
  cbn [speaker_match]. change (eqc "[" "[") with true. cbv iota.
  rewrite span_all.
  2:{ eapply Forall_impl; [exact Hs|]. intros x [Hx _]. simpl.
      apply negb_true_iff, not_true_iff_false. by rewrite eqc_eq. }
  2:{ done. }
  change (lstrip (" "%char :: text u)) with (lstrip (text u)).
  rewrite (rt_no_leading_space u Hu).
  rewrite <- (app_nil_r (text u)) at 1. rewrite span_all; [done | | done].
  apply Forall_forall. intros x Hx. simpl.
  apply negb_true_iff, not_true_iff_false. rewrite eqc_eq. by intros ->.
Qed.

Lemma cue_block_shape i u :
  0 <= i -> round_trips u ->
  ends_ok (cue_block i u)
  /\ no_blank_line (cue_block i u) = true
  /\ exists c r, cue_block i u = c :: r /\ isspace c = false.
Proof.
  intros Hi Hu. unfold cue_block.
  destruct (str_of_int_plain i Hi) as (Ni & ci & ri & Ei & Hci).
  destruct (time_line_spec u Hu) as (ts1 & ts2 & t1 & t2 & -> & W1 & W2 & _).
  destruct (time_line_plain ts1 ts2 W1 W2) as (Nt & ct & rt & Et & Hct).
  destruct (tagged_head u Hu) as (cg & rg & Eg & Hcg).
  split_and!.
  - apply ends_ok_app. change (nl :: ?x) with ([nl] ++ x).
    apply ends_ok_app, ends_ok_app.
    change (nl :: ?x) with ([nl] ++ x).
    by apply ends_ok_app, tagged_ends_ok.
  - rewrite no_blank_line_app_plain by done.
    rewrite Et, <- app_comm_cons, no_blank_line_nl by done.
    rewrite app_comm_cons, <- Et, no_blank_line_app_plain by done.
    rewrite Eg, no_blank_line_nl by done. rewrite <- Eg.
    by apply tagged_no_blank_line.
  - rewrite Ei. by eexists _, _.
Qed.

Lemma strip_block s :
  ends_ok s -> (exists c r, s = c :: r /\ isspace c = false) -> strip s = s.
Proof.
  intros [Hr _] (c & r & -> & Hc). apply strip_trimmed; [|done].
  by apply lstrip_nonspace.
Qed.

(** The parser reads the block of a cue back as the utterance. *)
Lemma parse_cue_block i u :
  0 <= i -> round_trips u ->
  exists c, block_cue (cue_block i u) = Some c /\ same_utterance u c.
Proof.
  intros Hi Hu.
  destruct (cue_block_shape i u Hi Hu) as (Hok & _ & Hhead).
  unfold block_cue, parse_block. rewrite strip_block by done.
  unfold cue_block.
  destruct (str_of_int_plain i Hi) as (Ni & _).
  destruct (time_line_spec u Hu)
    as (ts1 & ts2 & t1 & t2 & -> & W1 & W2 & P1 & Q1 & P2 & Q2).
  destruct (time_line_plain ts1 ts2 W1 W2) as (Nt & _).
  rewrite split_app_sep, split_app_sep by done.
  pose proof (split_nonnil nl (tagged u)) as Hsp.
  destruct (split nl (tagged u)) as [|l2 ls] eqn:Es; [done|].
  cbn [length Nat.ltb Nat.leb]. cbn [getitem lookup list_lookup].
  cbn [mbind result_bind].
  rewrite int_str_of_int by done.
  rewrite time_match_line by done. rewrite P1, P2.
  cbn [mbind result_bind drop].
  rewrite <- Es, join_split.
  pose proof (speaker_match_tagged u Hu) as Hm.
  destruct (speaker_match (tagged u)) as [[sp tx]|];
    injection Hm as -> ->; (eexists; split; [reflexivity|]);
    unfold same_utterance; simpl; by rewrite Q1, Q2.
Qed.
End Block.


(** ** Codec round trip: the document *)

Section Document.
Implicit Types (T : list Sentence) (i : Z) (bs : list str).

Lemma cue_blocks_ok i T :
  0 <= i -> Forall round_trips T -> Forall block_ok (cue_blocks i T).
Proof.
  intros Hi HT. revert i Hi. induction HT as [|u T Hu HT IH]; intros i Hi; simpl.
  - constructor.
  - constructor; [by apply cue_block_shape | apply IH; lia].
Qed.

Lemma join_blocks_shape bs :
  bs <> [] -> Forall block_ok bs ->
  ends_ok (join [nl; nl] bs)
  /\ exists c r, join [nl; nl] bs = c :: r /\ isspace c = false.
Proof.
  intros Hne Hbs. induction Hbs as [|b bs Hb Hbs IH]; [done|].
  destruct Hb as (Hends & _ & c & r & -> & Hc).
  destruct bs as [|b' bs'].
  - simpl. split; [done | by eexists _, _].
  - rewrite join_cons by done. split.
    + rewrite app_assoc. apply ends_ok_app. by apply IH.
    + by eexists _, _.
Qed.

(** The blank-line pattern cuts the text written exactly between the
    blocks. *)
Lemma re_split_join bs :
  bs <> [] -> Forall block_ok bs -> re_split 0 (join [nl; nl] bs) = bs.
Proof.
  intros Hne Hbs. induction Hbs as [|b bs Hb Hbs IH]; [done|].
  destruct bs as [|b' bs'].
  - simpl. destruct Hb as (Hends & Hnb & _).
    rewrite <- (app_nil_r b) at 1. rewrite re_split_prepend by done.
    simpl. by rewrite app_nil_r.
  - rewrite join_cons by done.
    destruct Hb as (Hends & Hnb & _).
    rewrite re_split_prepend by done.
    destruct (join_blocks_shape (b' :: bs')) as (_ & c & r & E & Hc); [done..|].
    rewrite E. cbn [app]. rewrite re_split_blank_line by done.
    rewrite <- E, IH by done. simpl. by rewrite app_nil_r.
Qed.

Lemma strip_written bs :
  bs <> [] -> Forall block_ok bs ->
  strip (join [nl; nl] bs ++ [nl]) = join [nl; nl] bs.
Proof.
  intros Hne Hbs.
  destruct (join_blocks_shape bs Hne Hbs) as ([Hfix _] & c & r & E & Hc).
  unfold strip. rewrite E in *. cbn [app]. rewrite lstrip_nonspace by done.
  rewrite app_comm_cons, rstrip_snoc_space by done. done.
Qed.

Lemma cue_blocks_parse i T :
  0 <= i -> Forall round_trips T ->
  exists T', omap block_cue (cue_blocks i T) = T' /\ Forall2 same_utterance T T'.
Proof.
  intros Hi HT. revert i Hi. induction HT as [|u T Hu HT IH]; intros i Hi; simpl.
  - exists []. split; [done | constructor].
  - destruct (parse_cue_block i u Hi Hu) as (c & -> & Hsame).
    destruct (IH (i + 1)) as (T' & <- & HF); [lia|].
    eexists. split; [reflexivity|]. by constructor.
Qed.

Lemma cue_blocks_nonnil i T : T <> [] -> cue_blocks i T <> [].
Proof. by destruct T. Qed.
End Document.

(** C1, as the code has it: a transcript goes through the serializer (with
    speakers included) and the parser unchanged in the start, end, text and
    speaker of every utterance, in order, when every utterance has a
    non-empty text without leading or trailing whitespace and without blank
    line, a speaker without closing bracket and without newline, start and
    end times that are whole milliseconds below one hundred hours, and
    either no speaker and a text that does not itself begin with a
    bracketed tag, or a speaker and a text of one line. *)
Theorem srt_round_trip (T : list Sentence) :
  Forall round_trips T ->
  exists T',
    _parse_srt_content (srt_text T true) = Ok T'
    /\ Forall2 same_utterance T T'.
Proof.
  intros HT. destruct T as [|u T].
  - exists []. split; [reflexivity | constructor].
  - unfold srt_text, _parse_srt_content.
    rewrite srt_text_blocks by done.
    assert (Hok : Forall block_ok (cue_blocks 1 (u :: T)))
      by (by apply cue_blocks_ok).
    rewrite strip_written, re_split_join by done.
    rewrite parse_blocks_omap, app_nil_l.
    destruct (cue_blocks_parse 1 (u :: T)) as (T' & E & HF); [done..|].
    exists T'. by rewrite E.
Qed.


(** A sufficient test for [round_trips], by computation. *)
Lemma round_trips_intro (u : Sentence) (ms1 ms2 : Z) :
  text u <> [] ->
  lstrip (text u) = text u ->
  rstrip (text u) = text u ->
  no_blank_line (text u) = true ->
  forallb (fun c => negb (eqc c "]") && negb (eqc c nl)) (speaker u) = true ->
  match speaker u with
  | [] => speaker_match (text u) = None
  | _ :: _ => forallb (fun c => negb (eqc c nl)) (text u) = true
  end ->
  0 <= ms1 < 360000000 -> (start_time u == inject_Z ms1 / 1000)%Q ->
  0 <= ms2 < 360000000 -> (end_time u == inject_Z ms2 / 1000)%Q ->
  round_trips u.
Proof.
  intros Hne Hl Hr Hnb Hs Htag Hm1 Hq1 Hm2 Hq2.
  split; try done.
  - apply Forall_forall. intros c Hc.
    rewrite forallb_forall in Hs. apply list_elem_of_In, Hs in Hc.
    apply andb_true_iff in Hc as [H1 H2].
    apply negb_true_iff in H1, H2.
    split; intros ->.
    + by rewrite Ascii.eqb_refl in H1.
    + unfold eqc in H2. by rewrite Ascii.eqb_refl in H2.
  - destruct (speaker u); [done|].
    intros Hin. rewrite forallb_forall in Htag.
    apply list_elem_of_In, Htag in Hin. unfold eqc in Hin.
    by rewrite Ascii.eqb_refl in Hin.
  - by exists ms1.
  - by exists ms2.
Qed.

Lemma round_trips_three_utterances : Forall round_trips three_utterances.
Proof.
  unfold three_utterances.
  constructor; [|constructor; [|constructor; [|constructor]]].
  - apply (round_trips_intro _ 0 1500); try done; try lia; by vm_compute.
  - apply (round_trips_intro _ 1500 4000); try done; try lia; by vm_compute.
  - apply (round_trips_intro _ 4000 6001); try done; try lia; by vm_compute.
Qed.

Lemma srt_round_trip_witness :
  exists T',
    _parse_srt_content (srt_text three_utterances true) = Ok T'
    /\ Forall2 same_utterance three_utterances T'.
Proof. exact (srt_round_trip three_utterances round_trips_three_utterances). Defined.

(** C1, as stated, fails: an utterance without speaker whose text begins
    with a bracket comes back with the bracketed part as its speaker. *)
Lemma round_trip_bracket_text : ~ round_trip_as_stated.
Proof.
  intros H. destruct (H bracket_text) as (T' & Hparse & Hsame).
  { repeat constructor; [done | by intros ?%elem_of_nil]. }
  vm_compute in Hparse. injection Hparse as <-.
  inversion Hsame as [|? ? ? ? (_ & _ & Htext & _) _]. by vm_compute in Htext.
Qed.

(** With a speaker, the text that comes back is the first line only: the
    second group of the speaker pattern stops at the newline. *)
Lemma speaker_tag_cuts_later_lines :
  exists c,
    _parse_srt_content (srt_text two_lines_with_speaker true) = Ok [c]
    /\ speaker c = lit "spk0" /\ text c = lit "a".
Proof. eexists. split; [by vm_compute | done]. Qed.


(** ** The theorems at the inputs of the specification's tests *)

(** Zero-overlap default: the utterance [100,110) against spans that end at
    second 10 gets the default speaker. *)
Lemma find_speaker_max_single_span_witness :
  _find_speaker_for_time 100 110 two_spans_vs_one = default_speaker.
Proof.
  apply (proj1 (find_speaker_max_single_span 100 110 two_spans_vs_one)).
  repeat constructor; by vm_compute.
Defined.

(** Of two speakers with spans of 2 and 4 seconds the one returned owns the
    span of 4 seconds. *)
Lemma find_speaker_default_and_first_witness :
  exists before segs after m,
    tied_totals
    = before ++ (_find_speaker_for_time 0 10 tied_totals, segs) :: after
    /\ (0 < m)%Q
    /\ Exists (fun seg => overlap 0 10 seg = m) segs
    /\ all_lt 0 10 m before
    /\ Forall (fun seg => (overlap 0 10 seg <= m)%Q) segs
    /\ all_le 0 10 m after.
Proof.
  apply (proj2 (proj2 (find_speaker_default_and_first 0 10 tied_totals))).
  intros H. apply Forall_inv in H. apply Forall_inv in H. by vm_compute in H.
Defined.

Lemma combine_with_asr_labels_all_witness :
  exists h',
    combine_with_asr instant_store [0%nat] only_spk0 = Some (h', [0%nat])
    /\ deref h' [0%nat] = label only_spk0 <$> deref instant_store [0%nat]
    /\ length (deref h' [0%nat]) = length [0%nat]
    /\ (forall l s, l ∈ [0%nat] -> instant_store !! l = Some s ->
        h' !! l = Some (label only_spk0 s))
    /\ (forall l, l ∉ [0%nat] -> h' !! l = instant_store !! l)
    /\ (forall l s, l ∈ [0%nat] -> instant_store !! l = Some s ->
        (end_time s == start_time s)%Q ->
        speaker <$> h' !! l = Some default_speaker).
Proof.
  apply (combine_with_asr_labels_all only_spk0 instant_store [0%nat]).
  intros l Hl. apply list_elem_of_singleton in Hl as ->. by eexists.
Defined.

(** Filtering the transcript of three utterances on speaker spk1 keeps the
    second utterance alone. *)
Lemma filter_by_speaker_correct_witness :
  exists d,
    filter_by_speaker three_utterances {[ lit "spk1" ]} = succeed d
    /\ fd_sentences d
       = filter (fun s => speaker s ∈ ({[ lit "spk1" ]} : gset str)) three_utterances
    /\ (forall s, s ∈ fd_sentences d
                  <-> s ∈ three_utterances /\ speaker s ∈ ({[ lit "spk1" ]} : gset str))
    /\ fd_sentences d `sublist_of` three_utterances
    /\ ((forall s, s ∈ three_utterances -> speaker s ∈ ({[ lit "spk1" ]} : gset str)) ->
        fd_sentences d = three_utterances).
Proof.
  apply (proj2 (filter_by_speaker_correct three_utterances {[ lit "spk1" ]})).
  intros H. assert (Hin : lit "spk1" ∈ ({[ lit "spk1" ]} : gset str)) by set_solver.
  rewrite H in Hin. set_solver.
Defined.

(** Merge speaker boundary: the first two of the three utterances touch at
    second 1.5 and have different speakers; they end in different cues. *)
Lemma merge_segments_respects_speakers_witness :
  merge_segments three_utterances 1 30
  = merge_segments (take 1 three_utterances) 1 30
    ++ merge_segments (drop 1 three_utterances) 1 30.
Proof.
  destruct (merge_segments_respects_speakers 1 30) as (_ & _ & Hcut).
  apply (Hcut [] (utterance 0 (3 / 2) (lit "Hello there. How are you? Fine.") (lit "spk0")));
    [by vm_compute | by vm_compute |].
  simpl. intros H. by vm_compute in H.
Defined.

(** A block whose first line is no integer is skipped alone. *)
Lemma parse_srt_content_total_witness :
  parse_blocks ([one_cue_doc] ++ lit "x" :: [one_cue_doc]) []
  = parse_blocks ([one_cue_doc] ++ [one_cue_doc]) [].
Proof.
  apply (proj2 parse_srt_content_total [one_cue_doc] (lit "x") [one_cue_doc] []).
  by vm_compute.
Defined.

(** A block of two lines yields no cue. *)
Lemma parse_srt_resilient_witness :
  block_cue (lit "1" ++ nl :: lit "hello") = None
  /\ forall before after,
      omap block_cue (before ++ (lit "1" ++ nl :: lit "hello") :: after)
      = omap block_cue (before ++ after).
Proof.
  apply (proj1 (proj2 parse_srt_resilient)). left. vm_compute. lia.
Defined.


(** ** The scenarios of section 8 of the specification *)

(** Overlap correctness: utterance [10,20) against A:[5,12] and B:[12,20]
    gives B. *)
Example overlap_correctness :
  _find_speaker_for_time 10 20
    [(lit "A", [Seg.make 5 12]); (lit "B", [Seg.make 12 20])]
  = lit "B".
Proof. by vm_compute. Qed.

(** Merge gap boundary: a gap of half a second merges under a limit of one
    second and does not under a limit of 0.4 seconds. *)
Example merge_gap_boundary :
  let a := utterance 0 2 (lit "a") (lit "spk1") in
  let b := utterance (5 / 2) 4 (lit "b") (lit "spk1") in
  merge_segments [a; b] 1 30 = [utterance 0 4 (lit "a b") (lit "spk1")]
  /\ merge_segments [a; b] (4 / 10) 30 = [a; b].
Proof. split; by vm_compute. Qed.

(** End to end: two utterances of one speaker are fused, merged and written
    as one cue. *)
Example end_to_end :
  let h : gmap nat Sentence :=
    {[ 0%nat := utterance 0 3 (lit "hello") []; 1%nat := utterance 3 6 (lit "world") [] ]} in
  let segs : speaker_segments := [(lit "spk0", [Seg.make 0 6])] in
  match combine_with_asr h [0%nat; 1%nat] segs with
  | Some (h', out) =>
      srt_text (merge_segments (deref h' out) 1 10) true
      = join [nl] [lit "1"; lit "00:00:00,000 --> 00:00:06,000";
                   lit "[spk0] hello world"; []]
  | None => False
  end.
Proof. vm_compute. reflexivity. Qed.


(** * Further properties of the code *)

(** ** Speaker model *)

(** X1.  The resolver invents no speaker: it answers with the default name or
    with a key of the dict it was given. *)
Theorem find_speaker_known (start_time end_time : Q) (items : speaker_segments) :
  _find_speaker_for_time start_time end_time items = default_speaker
  \/ _find_speaker_for_time start_time end_time items ∈ items.*1.
Proof.
  unfold _find_speaker_for_time.
  destruct (speaker_loop start_time end_time items (0%Q, default_speaker))
    as [m' b'] eqn:E. simpl.
  destruct (speaker_loop_spec _ _ _ _ _ _ _ E)
    as [[_ [= _ ->]] | (i1 & sg & i2 & -> & _)]; [by left | right].
  rewrite fmap_app, fmap_cons, elem_of_app. right. left.
Qed.

(** X2.  When some span overlaps the utterance and every span that does belongs
    to the speaker [id], the resolver answers [id]. *)
Theorem find_speaker_only_overlapping (start_time end_time : Q)
    (items : speaker_segments) (id : str) :
  ~ no_overlap start_time end_time items ->
  (forall id' segs seg,
      (id', segs) ∈ items -> seg ∈ segs ->
      (0 < overlap start_time end_time seg)%Q -> id' = id) ->
  _find_speaker_for_time start_time end_time items = id.
Proof.
  intros Hsome Honly. unfold _find_speaker_for_time.
  destruct (speaker_loop start_time end_time items (0%Q, default_speaker))
    as [m' b'] eqn:E. simpl.
  destruct (speaker_loop_spec _ _ _ _ _ _ _ E)
    as [[Hall _] | (i1 & sg & i2 & -> & Hlt & Hex & _)]; [by destruct Hsome|].
  apply Exists_exists in Hex as (seg & Hin & Hov).
  apply (Honly b' sg seg); [|done|by rewrite Hov].
  rewrite elem_of_app. right. left.
Qed.

Lemma find_speaker_only_overlapping_witness :
  _find_speaker_for_time 10 20
    [(lit "A", [Seg.make 0 5]); (lit "B", [Seg.make 12 18; Seg.make 30 40])]
  = lit "B".
Proof.
  apply find_speaker_only_overlapping.
  - intros H. apply Forall_cons in H as [_ H]. apply Forall_cons in H as [H _].
    apply Forall_cons in H as [H _]. by vm_compute in H.
  - intros id' segs seg Hitem Hseg Hpos.
    rewrite !elem_of_cons, elem_of_nil in Hitem.
    destruct Hitem as [[= -> ->] | [[= -> ->] | []]]; [|done].
    rewrite !elem_of_cons, elem_of_nil in Hseg.
    destruct Hseg as [-> | []]. by vm_compute in Hpos.
Defined.

(** ** Fusion *)

(** A run of the loop that returns found every reference in the store. *)
Lemma combine_loop_alloc (segs : speaker_segments) (refs : list nat)
    (h : gmap nat Sentence) (acc : list nat) r :
  combine_loop segs refs h acc = Some r ->
  forall l, l ∈ refs -> is_Some (h !! l).
Proof.
  revert h acc. induction refs as [|l0 rest IH]; intros h acc Hrun l Hl.
  - by apply elem_of_nil in Hl.
  - simpl in Hrun. destruct (h !! l0) as [s0|] eqn:Hs0; [|done].
    apply elem_of_cons in Hl as [->|Hl]; [by eexists|].
    specialize (IH _ _ Hrun l Hl).
    destruct (decide (l = l0)) as [->|Hne]; [by eexists|].
    by rewrite lookup_insert_ne in IH.
Qed.

(** X3.  Fusion reads the times only: a second run over the fused store finds
    every speaker written already and leaves the store as it is, and a
    speaker that a sentence had before the first run has no effect on the
    one it gets. *)
Theorem combine_with_asr_idempotent (segs : speaker_segments)
    (h h' : gmap nat Sentence) (refs out : list nat) :
  combine_with_asr h refs segs = Some (h', out) ->
  combine_with_asr h' out segs = Some (h', out)
  /\ deref h' out = label segs <$> (clear_speaker <$> deref h refs).
Proof.
  intros Hrun. unfold combine_with_asr in *.
  pose proof (combine_loop_alloc _ _ _ _ _ Hrun) as Halloc.
  destruct (combine_loop_spec segs refs h [] Halloc) as (h1 & Hrun1 & Hout & Hin).
  rewrite Hrun in Hrun1. injection Hrun1 as <- ->.
  assert (Halloc' : forall l, l ∈ refs -> is_Some (h' !! l)).
  { intros l Hl. destruct (Halloc l Hl) as [s Hs]. rewrite (Hin l s) by done.
    by eexists. }
  split.
  - destruct (combine_loop_spec segs refs h' [] Halloc') as (h2 & Hrun2 & Hout2 & Hin2).
    rewrite Hrun2. do 2 f_equal. apply map_eq. intros l.
    destruct (decide (l ∈ refs)) as [Hl|Hl]; [|by apply Hout2].
    destruct (Halloc l Hl) as [s Hs].
    rewrite (Hin2 l (label segs s)), (Hin l s) by (done || by apply Hin). done.
  - rewrite (deref_label segs h h') by done.
    rewrite <- list_fmap_compose. by apply list_fmap_ext.
Qed.

Lemma combine_with_asr_idempotent_witness :
  exists h' out,
    combine_with_asr instant_store [0%nat] only_spk0 = Some (h', out)
    /\ combine_with_asr h' out only_spk0 = Some (h', out)
    /\ deref h' out
       = label only_spk0 <$> (clear_speaker <$> deref instant_store [0%nat]).
Proof.
  destruct (combine_with_asr instant_store [0%nat] only_spk0) as [[h' out]|] eqn:E;
    [|by vm_compute in E].
  exists h', out. split; [done|].
  exact (combine_with_asr_idempotent only_spk0 instant_store h' [0%nat] out E).
Defined.


(** ** Speaker filter *)

(** X4.  Filtering the result of a filter is filtering once by the speakers that
    both sets hold; the counts reported are the lengths of the input and of
    the output, and the output is never longer. *)
Theorem filter_by_speaker_twice (sentences : list Sentence) (s1 s2 : gset str) :
  s1 ∩ s2 <> ∅ ->
  exists d1 d2 d,
    filter_by_speaker sentences s1 = succeed d1
    /\ filter_by_speaker (fd_sentences d1) s2 = succeed d2
    /\ filter_by_speaker sentences (s1 ∩ s2) = succeed d
    /\ fd_sentences d2 = fd_sentences d
    /\ original_count d = length sentences
    /\ filtered_count d = length (fd_sentences d)
    /\ (filtered_count d <= original_count d)%nat.
Proof.
  intros Hne.
  assert (Hs1 : s1 <> ∅).
  { intros ->. apply Hne. apply set_eq. intros x.
    rewrite elem_of_intersection, elem_of_empty. tauto. }
  assert (Hs2 : s2 <> ∅).
  { intros ->. apply Hne. apply set_eq. intros x.
    rewrite elem_of_intersection, elem_of_empty. tauto. }
  unfold filter_by_speaker.
  rewrite !bool_decide_eq_false_2 by done.
  eexists _, _, _. split_and!; try reflexivity; simpl.
  - rewrite !filter_loop_filter. simpl.
    rewrite list_filter_filter. apply list_filter_iff.
    intros s. rewrite elem_of_intersection. tauto.
  - rewrite filter_loop_filter. simpl. apply length_filter.
Qed.

Lemma filter_by_speaker_twice_witness :
  exists d1 d2 d,
    filter_by_speaker three_utterances {[ lit "spk0"; lit "spk1" ]} = succeed d1
    /\ filter_by_speaker (fd_sentences d1) {[ lit "spk1"; lit "spk2" ]} = succeed d2
    /\ filter_by_speaker three_utterances
         ({[ lit "spk0"; lit "spk1" ]} ∩ {[ lit "spk1"; lit "spk2" ]}) = succeed d
    /\ fd_sentences d2 = fd_sentences d
    /\ original_count d = length three_utterances
    /\ filtered_count d = length (fd_sentences d)
    /\ (filtered_count d <= original_count d)%nat.
Proof.
  apply filter_by_speaker_twice.
  intros H. apply (not_elem_of_empty (C := gset str) (lit "spk1")).
  rewrite <- H. rewrite elem_of_intersection, !elem_of_union, !elem_of_singleton.
  tauto.
Defined.

(** X5.  A set of speakers none of whom speaks in the transcript gives a
    success with no sentence, which the failure for an empty set is not. *)
Theorem filter_by_speaker_absent (sentences : list Sentence) (speakers : gset str) :
  speakers <> ∅ ->
  (forall s, s ∈ sentences -> speaker s ∉ speakers) ->
  exists d,
    filter_by_speaker sentences speakers = succeed d
    /\ fd_sentences d = [] /\ filtered_count d = 0%nat
    /\ filter_by_speaker sentences speakers <> filter_by_speaker sentences ∅.
Proof.
  intros Hne Hnone. unfold filter_by_speaker.
  rewrite bool_decide_eq_false_2 by done.
  rewrite (bool_decide_eq_true_2 (∅ = ∅)) by done.
  rewrite filter_loop_filter. simpl.
  assert (E : filter (fun s => speaker s ∈ speakers) sentences = []).
  { induction sentences as [|s rest IH]; [done|].
    rewrite filter_cons_False by (apply Hnone; left).
    apply IH. intros s' Hs'. apply Hnone. by right. }
  rewrite E. eexists. by split_and!.
Qed.

Lemma filter_by_speaker_absent_witness :
  exists d,
    filter_by_speaker three_utterances {[ lit "spk9" ]} = succeed d
    /\ fd_sentences d = [] /\ filtered_count d = 0%nat
    /\ filter_by_speaker three_utterances {[ lit "spk9" ]}
       <> filter_by_speaker three_utterances ∅.
Proof.
  apply filter_by_speaker_absent.
  - intros H. apply (not_elem_of_empty (C := gset str) (lit "spk9")).
    rewrite <- H. by apply elem_of_singleton.
  - intros s Hs Hin. apply elem_of_singleton in Hin.
    unfold three_utterances in Hs. rewrite !elem_of_cons, elem_of_nil in Hs.
    destruct Hs as [-> | [-> | [-> | []]]]; by vm_compute in Hin.
Defined.


(** ** Safe file names *)

Section SafeName.
Implicit Types (s filename : str) (c : ascii) (chars : list ascii).

Lemma replace_all_chars chars filename :
  fold_left (fun f char => replace char underscore f) chars filename
  = (fun c => if bool_decide (c ∈ chars) then underscore else c) <$> filename.
Proof.
  revert filename. induction chars as [|ch chars IH]; intros filename; simpl.
  - rewrite <- (list_fmap_id filename) at 1. apply list_fmap_ext.
    intros i c _. destruct (bool_decide_reflect (c ∈ [])) as [Hin|_]; [|done].
    by apply elem_of_nil in Hin.
  - rewrite IH. unfold replace. rewrite <- list_fmap_compose.
    apply list_fmap_ext. intros _ c _. simpl.
    destruct (eqc c ch) eqn:E.
    + apply eqc_eq in E as ->.
      rewrite (bool_decide_eq_true_2 (ch ∈ ch :: chars)) by left.
      by destruct (bool_decide (underscore ∈ chars)).
    + assert (c <> ch) by (intros ->; unfold eqc in E; by rewrite Ascii.eqb_refl in E).
      rewrite (bool_decide_ext (c ∈ ch :: chars) (c ∈ chars)); [done|].
      rewrite elem_of_cons. tauto.
Qed.

(** X6.  The safe file name has the length of the given name, an underscore in
    the place of each of the nine characters of line 28 and every other
    character as it was; none of the nine characters is left; making a safe
    name safe again changes nothing; and a name without any of the nine
    characters is returned as it is. *)
Theorem get_safe_filename_safe filename :
  get_safe_filename filename
  = (fun c => if bool_decide (c ∈ invalid_chars) then underscore else c) <$> filename
  /\ length (get_safe_filename filename) = length filename
  /\ Forall (fun c => c ∉ invalid_chars) (get_safe_filename filename)
  /\ get_safe_filename (get_safe_filename filename) = get_safe_filename filename
  /\ (Forall (fun c => c ∉ invalid_chars) filename ->
      get_safe_filename filename = filename).
Proof.
  assert (Hu : underscore ∉ invalid_chars) by compute_done.
  assert (Hsafe : forall f, Forall (fun c => c ∉ invalid_chars) f ->
                            get_safe_filename f = f).
  { intros f Hf. unfold get_safe_filename. rewrite replace_all_chars.
    rewrite <- (list_fmap_id f) at 2. apply list_fmap_ext.
    intros i c Hc. rewrite Forall_forall in Hf.
    apply list_elem_of_lookup_2, Hf in Hc.
    by rewrite bool_decide_eq_false_2. }
  assert (Hclean : Forall (fun c => c ∉ invalid_chars) (get_safe_filename filename)).
  { unfold get_safe_filename. rewrite replace_all_chars.
    apply Forall_fmap, Forall_forall. intros c _. simpl.
    by case_bool_decide. }
  split_and!; [apply replace_all_chars | | done | by apply Hsafe | apply Hsafe].
  unfold get_safe_filename. by rewrite replace_all_chars, length_fmap.
Qed.

Lemma get_safe_filename_safe_witness :
  get_safe_filename (lit "clip_001") = lit "clip_001".
Proof.
  apply (proj2 (proj2 (proj2 (proj2 (get_safe_filename_safe (lit "clip_001")))))).
  compute_done.
Defined.
End SafeName.


(** ** Serializer *)

Section Serializer.
Implicit Types (sentences : list Sentence) (i : Z) (include_speaker : bool).

Lemma has_text_false s : has_text s = false <-> strip (text s) = [].
Proof. unfold has_text. by destruct (strip (text s)). Qed.

Lemma srt_loop_step include_speaker i s sentences :
  srt_loop include_speaker i (s :: sentences) []
  = if has_text s
    then [str_of_int i;
          _seconds_to_srt_time (start_time s) ++ lit " --> "
          ++ _seconds_to_srt_time (end_time s);
          match speaker s with
          | _ :: _ =>
              if include_speaker
              then lit "[" ++ speaker s ++ lit "] " ++ strip (text s)
              else strip (text s)
          | [] => strip (text s)
          end;
          []]
         ++ srt_loop include_speaker (i + 1) sentences []
    else srt_loop include_speaker (i + 1) sentences [].
Proof.
  cbn [srt_loop]. unfold has_text.
  destruct (strip (text s)) as [|c t] eqn:E; [done|].
  rewrite srt_loop_app. by destruct (speaker s).
Qed.

(** X7.  The cue written for a sentence carries the position of the sentence in
    the list given, counted from 1, whether or not sentences before it were
    left out for having no text. *)
Theorem srt_index_is_position include_speaker sentences :
  index_lines (srt_loop include_speaker 1 sentences [])
  = (fun p => str_of_int p.1)
    <$> filter (fun p => has_text p.2 = true) (numbered 1 sentences).
Proof.
  generalize 1. induction sentences as [|s rest IH]; intros i; [done|].
  rewrite srt_loop_step. cbn [numbered].
  destruct (has_text s) eqn:Hs.
  - rewrite filter_cons_True by done. cbn [app index_lines fmap list_fmap fst].
    by rewrite IH.
  - rewrite filter_cons_False by (simpl; congruence). apply IH.
Qed.

Lemma srt_loop_length include_speaker i sentences :
  length (index_lines (srt_loop include_speaker i sentences []))
  = length (filter (fun s => has_text s = true) sentences).
Proof.
  revert i. induction sentences as [|s rest IH]; intros i; [done|].
  rewrite srt_loop_step.
  destruct (has_text s) eqn:Hs.
  - rewrite filter_cons_True by done. cbn [app index_lines length].
    by rewrite IH.
  - rewrite filter_cons_False by congruence. apply IH.
Qed.

(** X8.  With an output path the serializer succeeds exactly when the file
    can be opened and written, and then writes its text; the
    [subtitle_count] it reports is the number of sentences given, which is
    the number of cues written only when every sentence has text, and more
    otherwise.  When the file cannot be written it fails, and without an
    output path it fails whatever the file system would do and writes
    nothing. *)
Theorem generate_srt_counts (write : str -> str -> bool) sentences
    include_speaker (path : str) :
  path <> [] ->
  (write path (srt_text sentences include_speaker) = true ->
   exists d,
     generate_srt write sentences (Some path) include_speaker
     = (succeed d, Some (srt_text sentences include_speaker))
     /\ subtitle_count d = length sentences
     /\ (length (index_lines (srt_loop include_speaker 1 sentences []))
         <= subtitle_count d)%nat
     /\ (length (index_lines (srt_loop include_speaker 1 sentences []))
         = subtitle_count d
         <-> Forall (fun s => has_text s = true) sentences))
  /\ (write path (srt_text sentences include_speaker) = false ->
      generate_srt write sentences (Some path) include_speaker
      = (fail WriteFailed, None))
  /\ (success (generate_srt write sentences (Some path) include_speaker).1
      = write path (srt_text sentences include_speaker))
  /\ generate_srt write sentences None include_speaker
     = (fail MissingOutputPath, None)
  /\ generate_srt write sentences (Some []) include_speaker
     = (fail MissingOutputPath, None).
Proof.
  intros Hpath. destruct path as [|c path]; [done|]. cbn [generate_srt].
  split_and!; [| | | done | done].
  - intros ->. eexists. split; [reflexivity|]. simpl. rewrite srt_loop_length.
    split_and!; try done.
    + apply length_filter.
    + split.
      * intros Hlen. induction sentences as [|s rest IH]; [constructor|].
        rewrite filter_cons in Hlen. destruct (decide (has_text s = true)) as [Hs|Hs].
        -- constructor; [done|]. apply IH. simpl in Hlen. lia.
        -- pose proof (length_filter (fun s => has_text s = true) rest).
           simpl in Hlen. lia.
      * intros Hall. f_equal. induction Hall as [|s rest Hs Hall IH]; [done|].
        by rewrite filter_cons_True, IH.
  - by intros ->.
  - by destruct (write (c :: path) (srt_text sentences include_speaker)).
Qed.

Lemma generate_srt_counts_witness :
  (exists d,
      generate_srt only_out_srt blank_then_text (Some (lit "out.srt")) false
      = (succeed d, Some (srt_text blank_then_text false))
      /\ subtitle_count d = 2%nat)
  /\ generate_srt only_out_srt blank_then_text (Some (lit "/missing/out.srt")) false
     = (fail WriteFailed, None).
Proof.
  split.
  - destruct (proj1 (generate_srt_counts only_out_srt blank_then_text false
                       (lit "out.srt") ltac:(done)) eq_refl)
      as (d & Hd & Hcount & _).
    exists d. by split.
  - by apply (proj1 (proj2 (generate_srt_counts only_out_srt blank_then_text false
                              (lit "/missing/out.srt") ltac:(done)))).
Defined.

(** X9.  Serializing without speakers writes what serializing with speakers
    writes for the transcript whose speakers have been removed. *)
Theorem srt_text_without_speakers sentences :
  srt_text sentences false = srt_text (clear_speaker <$> sentences) true.
Proof.
  unfold srt_text. f_equal. generalize 1 (@nil str).
  induction sentences as [|s rest IH]; intros i acc; [done|].
  cbn [srt_loop fmap list_fmap]. change (text (clear_speaker s)) with (text s).
  destruct (strip (text s)); [apply IH|].
  change (speaker (clear_speaker s)) with (@nil ascii).
  change (start_time (clear_speaker s)) with (start_time s).
  change (end_time (clear_speaker s)) with (end_time s).
  rewrite <- IH. by destruct (speaker s).
Qed.
End Serializer.


(** ** Parser: what it returns *)

Section ParserOutput.
Implicit Types (s a b : str) (c : ascii).

Lemma rstrip_idem s : rstrip (rstrip s) = rstrip s.
Proof.
  induction s as [|c s IH]; [done|]. simpl.
  destruct (rstrip s) as [|c' r'] eqn:E.
  - destruct (isspace c) eqn:Hc; [done|]. simpl. by rewrite Hc.
  - change (rstrip (c :: c' :: r'))
      with (match rstrip (c' :: r') with
            | [] => if isspace c then [] else [c]
            | r => c :: r
            end).
    by rewrite IH.
Qed.

Lemma strip_ends_ok s : strip s <> [] -> ends_ok (strip s).
Proof. intros Hne. split; [apply rstrip_idem | done]. Qed.

Lemma ends_ok_suffix a b : ends_ok (a ++ b) -> b <> [] -> ends_ok b.
Proof.
  induction a as [|c a IH]; intros Hok Hb; [done|].
  apply IH; [|done]. eapply ends_ok_tail; [exact Hok|].
  intros [_ ?]%app_eq_nil. done.
Qed.

Lemma span_fst_all (p : ascii -> bool) s :
  Forall (fun c => p c = true) (span p s).1 /\ s = (span p s).1 ++ (span p s).2.
Proof.
  induction s as [|c s [IH1 IH2]]; [by split|]. simpl.
  destruct (p c) eqn:Hc; [|by split].
  destruct (span p s) as [a b]. simpl in *. split; [by constructor | by f_equal].
Qed.

Lemma lstrip_prefix_fixed (p : ascii -> bool) s :
  lstrip ((span p (lstrip s)).1) = (span p (lstrip s)).1.
Proof.
  assert (H : lstrip s = [] \/ exists c r, lstrip s = c :: r /\ isspace c = false).
  { induction s as [|c s IH]; [by left|]. simpl.
    destruct (isspace c) eqn:Hc; [done|]. right. by exists c, s. }
  destruct H as [-> | (c & r & -> & Hc)]; [done|]. simpl.
  destruct (p c); [|done]. destruct (span p r). simpl. by rewrite Hc.
Qed.

(** The two groups of the speaker pattern: the speaker is not empty and has
    no closing bracket, the text is one line without leading whitespace. *)
Lemma speaker_match_groups t spk txt :
  speaker_match t = Some (spk, txt) ->
  spk <> [] /\ ("]"%char ∉ spk) /\ (nl ∉ txt) /\ lstrip txt = txt.
Proof.
  unfold speaker_match. destruct t as [|c r]; [done|].
  destruct (eqc c "["); [|done].
  pose proof (span_fst_all (fun x => negb (eqc x "]")) r) as [Hname _].
  destruct (span (fun x => negb (eqc x "]")) r) as [name rest].
  destruct name as [|n name]; [done|]. destruct rest as [|x rest]; [done|].
  intros [= <- <-]. simpl in Hname. split_and!; [done | | |].
  - intros Hin. rewrite Forall_forall in Hname. apply Hname in Hin.
    by vm_compute in Hin.
  - pose proof (span_fst_all (fun x => negb (eqc x nl)) (lstrip rest)) as [Htxt _].
    intros Hin. rewrite Forall_forall in Htxt. apply Htxt in Hin.
    by vm_compute in Hin.
  - apply lstrip_prefix_fixed.
Qed.

Lemma block_cue_invariant block (cue : Sentence) :
  block_cue block = Some cue -> parsed_cue_ok cue.
Proof.
  unfold block_cue, parse_block.
  destruct (length (split nl (strip block)) <? 3)%nat eqn:Hlen; [done|].
  apply Nat.ltb_ge in Hlen.
  pose proof (join_split nl (strip block)) as Hjoin.
  destruct (split nl (strip block)) as [|l0 [|l1 [|l2 lines]]];
    simpl in Hlen; try lia.
  cbn [getitem lookup list_lookup mbind result_bind].
  destruct (int l0) as [idx|]; [|done].
  cbn [mbind result_bind].
  destruct (time_match l1) as [[g1 g2]|]; [|done].
  destruct (_srt_time_to_seconds g1) as [start|e1] eqn:E1.
  2:{ apply srt_time_raises in E1 as ->. done. }
  destruct (_srt_time_to_seconds g2) as [stop|e2] eqn:E2.
  2:{ apply srt_time_raises in E2 as ->. done. }
  cbn [mbind result_bind try_except drop].
  destruct (speaker_match (join [nl] (l2 :: lines))) as [[spk txt]|] eqn:Em.
  - intros [= <-]. unfold parsed_cue_ok. simpl.
    apply speaker_match_groups in Em as (Hne & Hb & Hn & Hl).
    destruct spk; [done|]. by split_and!.
  - intros [= <-]. unfold parsed_cue_ok. simpl.
    assert (Hok : ends_ok (((l0 ++ [nl] ++ l1) ++ [nl]) ++ join [nl] (l2 :: lines))).
    { replace (((l0 ++ [nl] ++ l1) ++ [nl]) ++ join [nl] (l2 :: lines))
        with (strip block).
      - apply strip_ends_ok. rewrite <- Hjoin. by destruct l0.
      - rewrite <- Hjoin. cbn [join]. by rewrite <- !app_assoc. }
    assert (Hne : join [nl] (l2 :: lines) <> []).
    { intros Hnil. rewrite Hnil, app_nil_r in Hok.
      apply ends_ok_suffix in Hok; [|done].
      apply ends_ok_single in Hok. done. }
    split_and!; [done | apply not_elem_of_nil | done |].
    by apply ends_ok_suffix in Hok as [? _].
Qed.

(** X10.  Every cue the parser returns has an index; its speaker holds no closing
    bracket; with a speaker, its text is one line and starts with no
    whitespace; without a speaker, its text is not empty and ends with no
    whitespace. *)
Theorem parse_srt_content_cues content cues :
  _parse_srt_content content = Ok cues -> Forall parsed_cue_ok cues.
Proof.
  unfold _parse_srt_content. rewrite parse_blocks_omap. intros [= <-].
  apply Forall_forall. intros cue Hc.
  apply list_elem_of_omap in Hc as (b & _ & Hb).
  by eapply block_cue_invariant.
Qed.

Lemma parse_srt_content_cues_witness :
  exists cues,
    _parse_srt_content one_cue_one_broken_doc = Ok cues
    /\ Forall parsed_cue_ok cues.
Proof.
  destruct (_parse_srt_content one_cue_one_broken_doc) as [cues|] eqn:E;
    [|by vm_compute in E].
  exists cues. split; [done|]. exact (parse_srt_content_cues _ _ E).
Defined.

Lemma lstrip_spaces ws s :
  Forall (fun c => isspace c = true) ws -> lstrip (ws ++ s) = lstrip s.
Proof. induction 1 as [|c ws Hc _ IH]; [done|]. simpl. by rewrite Hc. Qed.

Lemma rstrip_spaces s ws :
  Forall (fun c => isspace c = true) ws -> rstrip (s ++ ws) = rstrip s.
Proof.
  intros Hws. induction ws as [|c ws IH] using rev_ind; [by rewrite app_nil_r|].
  apply Forall_app in Hws as [Hws Hc]. apply Forall_inv in Hc.
  rewrite app_assoc, rstrip_snoc_space by done. by apply IH.
Qed.

Lemma strip_spaces ws s ws' :
  Forall (fun c => isspace c = true) ws ->
  Forall (fun c => isspace c = true) ws' ->
  strip (ws ++ s ++ ws') = strip s.
Proof.
  intros Hws Hws'. unfold strip. rewrite lstrip_spaces by done.
  induction s as [|c s IH].
  - simpl. rewrite <- (app_nil_l ws') at 1. rewrite lstrip_spaces by done.
    rewrite <- (app_nil_r ws'). by rewrite lstrip_spaces.
  - simpl. destruct (isspace c); [done|].
    by rewrite app_comm_cons, rstrip_spaces.
Qed.

(** X11.  Whitespace before and after a document does not change what is parsed;
    a document of whitespace alone, or an empty one, yields no cue. *)
Theorem parse_srt_content_surrounding_space ws content ws' :
  Forall (fun c => isspace c = true) ws ->
  Forall (fun c => isspace c = true) ws' ->
  _parse_srt_content (ws ++ content ++ ws') = _parse_srt_content content
  /\ _parse_srt_content ws = Ok [].
Proof.
  intros Hws Hws'. unfold _parse_srt_content. split.
  - by rewrite strip_spaces.
  - rewrite <- (app_nil_r ws), <- (app_nil_l []), strip_spaces by done. reflexivity.
Qed.

Lemma parse_srt_content_surrounding_space_witness :
  _parse_srt_content ([nl; nl] ++ one_cue_doc ++ lit "  ")
  = _parse_srt_content one_cue_doc
  /\ _parse_srt_content [nl; nl] = Ok [].
Proof.
  apply parse_srt_content_surrounding_space; by repeat constructor.
Defined.
End ParserOutput.


(** ** Speaker model: parsing the diarization *)

Section SpeakerResult.
Implicit Types (d : speaker_segments) (k id : str) (v : list Seg.t)
  (raw : list RawSegment).

Lemma dict_get_None d k : dict_get d k = None <-> k ∉ d.*1.
Proof.
  induction d as [|[k' v'] d IH]; cbn [dict_get].
  - split; [intros _; apply not_elem_of_nil | done].
  - rewrite fmap_cons, not_elem_of_cons. cbn [fst]. destruct (str_eqb k' k) eqn:E.
    + apply str_eqb_eq in E as ->. split; [done | by intros [? _]].
    + assert (k <> k') by (intros ->; by rewrite (proj2 (str_eqb_eq k' k')) in E).
      rewrite IH. tauto.
Qed.

Lemma dict_get_set d k v k' :
  dict_get (dict_set d k v) k' = if str_eqb k k' then Some v else dict_get d k'.
Proof.
  induction d as [|[k0 v0] d IH]; simpl.
  - done.
  - destruct (str_eqb k0 k) eqn:E0; simpl.
    + apply str_eqb_eq in E0 as ->. by destruct (str_eqb k k').
    + rewrite IH. destruct (str_eqb k0 k') eqn:E1; [|done].
      apply str_eqb_eq in E1 as ->.
      destruct (str_eqb k k') eqn:E2; [|done].
      apply str_eqb_eq in E2 as ->. by rewrite (proj2 (str_eqb_eq k' k')) in E0.
Qed.

Lemma dict_set_keys d k v :
  (dict_set d k v).*1 = if bool_decide (k ∈ d.*1) then d.*1 else d.*1 ++ [k].
Proof.
  induction d as [|[k0 v0] d IH]; [done|]. cbn [dict_set].
  destruct (str_eqb k0 k) eqn:E0; rewrite !fmap_cons; cbn [fst].
  - apply str_eqb_eq in E0 as ->. by rewrite bool_decide_eq_true_2 by left.
  - assert (k <> k0) by (intros ->; by rewrite (proj2 (str_eqb_eq k0 k0)) in E0).
    rewrite IH.
    rewrite (bool_decide_ext (k ∈ k0 :: d.*1) (k ∈ d.*1))
      by (rewrite elem_of_cons; tauto).
    by case_bool_decide.
Qed.

Lemma step_get d segment id :
  dict_get (speaker_result_step d segment) id
  = if str_eqb (parsed_speaker segment) id
    then Some (default [] (dict_get d id) ++ [parsed_segment segment])
    else dict_get d id.
Proof.
  unfold speaker_result_step. rewrite dict_get_set.
  destruct (str_eqb (parsed_speaker segment) id) eqn:E.
  - apply str_eqb_eq in E as <-.
    destruct (dict_get d (parsed_speaker segment)) eqn:Eg; [by rewrite Eg|].
    by rewrite dict_get_set, (proj2 (str_eqb_eq _ _) eq_refl).
  - destruct (dict_get d (parsed_speaker segment)); [done|].
    by rewrite dict_get_set, E.
Qed.

Lemma step_keys d segment :
  (speaker_result_step d segment).*1
  = if bool_decide (parsed_speaker segment ∈ d.*1) then d.*1
    else d.*1 ++ [parsed_speaker segment].
Proof.
  unfold speaker_result_step.
  destruct (dict_get d (parsed_speaker segment)) eqn:Eg.
  - rewrite dict_set_keys. case_bool_decide as Hin; [done|].
    apply dict_get_None in Hin. congruence.
  - rewrite !dict_set_keys. apply dict_get_None in Eg.
    rewrite (bool_decide_eq_false_2 (parsed_speaker segment ∈ d.*1)) by done.
    by rewrite bool_decide_eq_true_2 by (rewrite elem_of_app; right; left).
Qed.

Lemma fold_get raw d id :
  dict_get (fold_left speaker_result_step raw d) id
  = match parsed_segment <$> filter (fun s => parsed_speaker s = id) raw with
    | [] => dict_get d id
    | new => Some (default [] (dict_get d id) ++ new)
    end.
Proof.
  revert d. induction raw as [|s raw IH]; intros d; [done|].
  cbn [fold_left]. rewrite IH, step_get, filter_cons.
  destruct (decide (parsed_speaker s = id)) as [Heq|Hne].
  - rewrite (proj2 (str_eqb_eq _ _) Heq), fmap_cons.
    destruct (parsed_segment <$> filter (fun s => parsed_speaker s = id) raw)
      as [|x l]; [done|].
    simpl. by rewrite <- app_assoc.
  - destruct (str_eqb (parsed_speaker s) id) eqn:E; [|done].
    by apply str_eqb_eq in E.
Qed.

Lemma fold_keys raw d :
  NoDup d.*1 ->
  NoDup (fold_left speaker_result_step raw d).*1
  /\ forall id, id ∈ (fold_left speaker_result_step raw d).*1
                <-> id ∈ d.*1 \/ exists s, s ∈ raw /\ parsed_speaker s = id.
Proof.
  revert d. induction raw as [|s raw IH]; intros d Hnd.
  - split; [done|]. intros id. split; [by left|].
    intros [? | (s & Hs & _)]; [done | by apply elem_of_nil in Hs].
  - cbn [fold_left].
    assert (Hnd' : NoDup (speaker_result_step d s).*1).
    { rewrite step_keys. case_bool_decide as Hin; [done|].
      apply NoDup_app. split_and!; [done | | apply NoDup_singleton].
      intros x Hx ->%list_elem_of_singleton. done. }
    destruct (IH _ Hnd') as [IH1 IH2]. split; [done|].
    intros id. rewrite IH2, step_keys. split.
    + intros [Hin | (s' & Hs' & Hid)].
      * case_bool_decide; [by left|].
        apply elem_of_app in Hin as [Hin | ->%list_elem_of_singleton]; [by left|].
        right. exists s. split; [left | done].
      * right. exists s'. split; [by right | done].
    + intros [Hin | (s' & Hs' & Hid)].
      * left. case_bool_decide; [done|]. apply elem_of_app. by left.
      * apply elem_of_cons in Hs' as [-> | Hs'].
        -- left. subst id. case_bool_decide; [done|].
           apply elem_of_app. right. left.
        -- right. by exists s'.
Qed.

(** X12.  The dict of the diarization has one key for each speaker named in the
    raw result ("spk0" where no speaker is named), no key twice; under a
    speaker it holds the raw segments of that speaker, in their order, with
    times in seconds and the duration between them; [speakers] lists the
    keys and [num_speakers] counts them. *)
Theorem parse_speaker_result_groups raw :
  let r := _parse_speaker_result raw in
  NoDup (speakers r)
  /\ speakers r = (sr_speaker_segments r).*1
  /\ num_speakers r = length (speakers r)
  /\ (forall id, id ∈ speakers r <-> exists s, s ∈ raw /\ parsed_speaker s = id)
  /\ (forall id,
        dict_get (sr_speaker_segments r) id
        = match parsed_segment <$> filter (fun s => parsed_speaker s = id) raw with
          | [] => None
          | segs => Some segs
          end)
  /\ (forall id segs seg,
        dict_get (sr_speaker_segments r) id = Some segs -> seg ∈ segs ->
        Seg.duration seg = (Seg.end_time seg - Seg.start_time seg)%Q).
Proof.
  unfold _parse_speaker_result. cbn zeta. simpl.
  destruct (fold_keys raw [] (NoDup_nil_2)) as [Hnd Hkeys].
  split_and!; [done | done | by rewrite length_fmap | | |].
  - intros id. rewrite Hkeys. split; [|by right].
    intros [Hin | H]; [by apply elem_of_nil in Hin | done].
  - intros id. rewrite fold_get. simpl.
    by destruct (parsed_segment <$> filter (fun s => parsed_speaker s = id) raw).
  - intros id segs seg Hget Hseg. rewrite fold_get in Hget. simpl in Hget.
    destruct (parsed_segment <$> filter (fun s => parsed_speaker s = id) raw)
      as [|x l] eqn:E; [done|].
    injection Hget as <-. rewrite <- E in Hseg.
    by apply list_elem_of_fmap in Hseg as (s & -> & _).
Qed.
End SpeakerResult.


(** ** Speech recognition model: parsing the transcript *)

Section AsrResult.
Implicit Types (raw : list RawItem) (item : RawItem)
  (sentences : list AsrSentence).

Lemma asr_sentence_spec item text :
  item_text item = Some text ->
  match first_pair item with
  | Some (a, b) =>
      exists s, asr_sentence item text = Ok s /\ stands_for item s
  | None => asr_sentence item text = Raise IndexError
  end.
Proof.
  intros Htext. unfold first_pair, asr_sentence, timestamp_part, stands_for, first_pair.
  destruct (default [[0%Q; 0%Q]] (item_timestamp item)) as [|[|a [|b p]] ts];
    try done.
  all: eexists; split; [reflexivity|]; simpl; split_and!; [done | by eexists _, _ | done].
Qed.

Lemma asr_loop_ok raw sentences :
  Forall usable raw ->
  exists new,
    asr_loop raw sentences = Ok (sentences ++ new)
    /\ Forall2 stands_for (filter (fun item => is_Some (item_text item)) raw) new.
Proof.
  intros Hraw. revert sentences.
  induction Hraw as [|item raw Hitem Hraw IH]; intros sentences.
  - exists []. by rewrite app_nil_r.
  - cbn [asr_loop]. rewrite filter_cons.
    destruct (item_text item) as [text|] eqn:Et.
    + rewrite decide_True by by eexists.
      pose proof (asr_sentence_spec item text Et) as Hs.
      destruct (Hitem ltac:(by eexists)) as [[a b] Hp]. rewrite Hp in Hs.
      destruct Hs as (s & -> & Hst). cbn [mbind result_bind].
      destruct (IH (sentences ++ [s])) as (new & -> & Hnew).
      exists (s :: new). rewrite <- app_assoc. split; [done|]. by constructor.
    + rewrite decide_False by (by intros [? ?]). apply IH.
Qed.

Lemma asr_loop_raise raw sentences :
  ~ Forall usable raw -> asr_loop raw sentences = Raise IndexError.
Proof.
  revert sentences. induction raw as [|item raw IH]; intros sentences Hbad.
  - destruct Hbad. constructor.
  - cbn [asr_loop]. destruct (item_text item) as [text|] eqn:Et.
    + pose proof (asr_sentence_spec item text Et) as Hs.
      destruct (first_pair item) as [[a b]|] eqn:Hp.
      * destruct Hs as (s & -> & _). cbn [mbind result_bind]. apply IH.
        intros Hall. apply Hbad. constructor; [|done]. intros _. by eexists.
      * by rewrite Hs.
    + apply IH. intros Hall. apply Hbad. constructor; [|done].
      intros [? ?]. congruence.
Qed.

(** X13.  The recogniser's result parses when every item that has a text has a
    timestamp whose first pair has two elements (an item without timestamp
    counts as timed 0 to 0): the sentences then stand for the items that
    have a text, one for one and in order, each timed by the first pair of
    its item and by nothing after it; the full text joins their texts with
    single spaces; the total duration is the end of the last sentence, or 0
    without sentences.  Otherwise the parse raises an IndexError. *)
Theorem parse_result_spec raw :
  (Forall usable raw ->
   exists r,
     _parse_result raw = Ok r
     /\ Forall2 stands_for (filter (fun item => is_Some (item_text item)) raw)
          (asr_sentences r)
     /\ full_text r = join (lit " ") (as_text <$> asr_sentences r)
     /\ asr_total_duration r
        = default 0%Q (as_end_time <$> last (asr_sentences r)))
  /\ (~ Forall usable raw -> _parse_result raw = Raise IndexError).
Proof.
  unfold _parse_result. split.
  - intros Hraw. destruct (asr_loop_ok raw [] Hraw) as (new & -> & Hnew).
    cbn [mbind result_bind app]. eexists. split; [reflexivity|]. simpl.
    split_and!; [done | done |]. by destruct (last new).
  - intros Hbad. by rewrite asr_loop_raise.
Qed.

Lemma parse_result_spec_witness :
  exists r,
    _parse_result
      [ {| item_text := Some (lit "hello");
           item_timestamp := Some [[0%Q; 400%Q]; [400%Q; 900%Q]];
           item_confidence := None |};
        {| item_text := None; item_timestamp := Some []; item_confidence := None |} ]
    = Ok r
    /\ as_end_time <$> asr_sentences r = [(400 / 1000)%Q].
Proof.
  edestruct (proj1 (parse_result_spec
      [ {| item_text := Some (lit "hello");
           item_timestamp := Some [[0%Q; 400%Q]; [400%Q; 900%Q]];
           item_confidence := None |};
        {| item_text := None; item_timestamp := Some []; item_confidence := None |} ]))
    as (r & Hr & Hst & _).
  - repeat constructor; intros [? ?]; [by eexists | done].
  - exists r. split; [done|].
    rewrite filter_cons_True in Hst by (by eexists).
    rewrite filter_cons_False in Hst by (by intros [? ?]).
    inversion Hst as [|? ? ? ? (_ & (a & b & Hp & _ & He) & _) Hrest]; subst.
    inversion Hrest; subst. simpl. f_equal. rewrite He.
    by injection Hp as <- <-.
Defined.
End AsrResult.


(** ** Audio and video processors: cutting by segments *)

Section Cutting.
Variable command : str -> Q -> Q -> list str.
Variable output_file : str -> str.
Variable run : nat -> list str -> str -> bool.
Variable prefix : str.
Implicit Types (segments : list ClipSegment) (files : list Piece) (i : nat).

Local Abbreviation loop := (cut_loop command output_file run prefix).

Lemma cut_loop_app i segments files :
  loop i segments files = files ++ loop i segments [].
Proof.
  revert i files. induction segments as [|seg rest IH]; intros i files.
  - simpl. by rewrite app_nil_r.
  - cbn [cut_loop]. destruct (Qle_bool _ _); [apply IH|].
    destruct (run _ _ _); [|apply IH].
    rewrite (IH _ (files ++ _)), (IH _ ([] ++ _)). by rewrite <- app_assoc.
Qed.

Lemma Qle_bool_false (a b : Q) : Qle_bool a b = false <-> (b < a)%Q.
Proof.
  rewrite <- not_true_iff_false, Qle_bool_iff.
  split; [apply Qnot_le_lt | apply Qlt_not_le].
Qed.

(** Every piece comes from a segment of positive duration, later pieces
    from later segments. *)
Lemma cut_loop_spec i segments :
  Forall (fun p => (i <= segment_index p)%nat
                   /\ cut_from segments
                        {| segment_index := segment_index p - i;
                           file_path := file_path p;
                           p_start_time := p_start_time p;
                           p_end_time := p_end_time p;
                           p_duration := p_duration p |})
    (loop i segments [])
  /\ StronglySorted lt (segment_index <$> loop i segments [])
  /\ (length (loop i segments []) <= length (filter positive segments))%nat
  /\ ((forall j cmd path, run j cmd path = true) ->
      length (loop i segments []) = length (filter positive segments)).
Proof.
  revert i. induction segments as [|seg rest IH]; intros i.
  - simpl. split_and!; [constructor | constructor | done | done].
  - destruct (IH (S i)) as (IH1 & IH2 & IH3 & IH4).
    assert (Hshift : Forall (fun p => (i <= segment_index p)%nat
               /\ cut_from (seg :: rest)
                    {| segment_index := segment_index p - i;
                       file_path := file_path p;
                       p_start_time := p_start_time p;
                       p_end_time := p_end_time p;
                       p_duration := p_duration p |})
              (loop (S i) rest [])).
    { eapply Forall_impl; [exact IH1|]. intros p [Hi (s & Hs & Hrest)].
      split; [lia|]. exists s. split; [|done]. simpl in *.
      replace (segment_index p - i)%nat with (S (segment_index p - S i)) by lia.
      done. }
    cbn [cut_loop].
    destruct (Qle_bool (default 0%Q (cs_end_time seg)) (default 0%Q (cs_start_time seg)))
      eqn:Hle.
    + assert (Hnp : ~ positive seg).
      { apply Qle_bool_iff in Hle. unfold positive. by apply Qle_not_lt. }
      rewrite filter_cons_False by done.
      split_and!; [done | done | done |].
      done.
    + apply Qle_bool_false in Hle.
      rewrite filter_cons_True by done.
      destruct (run i _ _) eqn:Hrun_i.
      * rewrite cut_loop_app. cbn [app fmap list_fmap length].
        split_and!.
        -- constructor; [|done]. simpl. split; [lia|].
           exists seg. rewrite Nat.sub_diag. by split_and!.
        -- constructor; [done|].
           apply Forall_fmap. eapply Forall_impl; [exact IH1|].
           intros p [Hp _]. simpl. lia.
        -- simpl. lia.
        -- intros Hrun. simpl. by rewrite IH4.
      * split_and!; [done | done | simpl; lia |].
        intros Hrun. by rewrite Hrun in Hrun_i.
Qed.

Lemma cut_loop_pieces segments :
  Forall (cut_from segments) (loop 0 segments [])
  /\ StronglySorted lt (segment_index <$> loop 0 segments [])
  /\ (length (loop 0 segments []) <= length (filter positive segments))%nat
  /\ ((forall j cmd path, run j cmd path = true) ->
      length (loop 0 segments []) = length (filter positive segments)).
Proof.
  destruct (cut_loop_spec 0 segments) as (H1 & H2 & H3 & H4).
  split_and!; try done.
  eapply Forall_impl; [exact H1|]. intros [idx path s e dur] [_ Hcut].
  simpl in Hcut. by rewrite Nat.sub_0_r in Hcut.
Qed.
End Cutting.

Lemma sum_durations (l : list Piece) (acc : Q) :
  Forall (fun p => (0 < p_duration p)%Q) l ->
  (acc <= fold_left (fun a clip => a + p_duration clip) l acc)%Q
  /\ (l <> [] -> acc < fold_left (fun a clip => a + p_duration clip) l acc)%Q.
Proof.
  intros Hl. revert acc. induction Hl as [|p l Hp Hl IH]; intros acc.
  - simpl. split; [apply Qle_refl | done].
  - simpl. destruct (IH (acc + p_duration p)%Q) as [IH1 _]. split; [lra|].
    intros _. lra.
Qed.

(** X14.  The pieces [segment_audio] reports are cut from segments of the list
    given that end after they start, each with the times of its segment and
    the duration between them; a segment that ends where it starts or
    before is never sent to ffmpeg; the pieces come in the order of the
    segments, no segment twice; [total_segments] counts them; and when
    every run of ffmpeg succeeds there is one piece for every such
    segment. *)
Theorem segment_audio_pieces (command : str -> Q -> Q -> list str)
    (output_file : str -> str) (run : nat -> list str -> str -> bool)
    (segments : list ClipSegment) :
  let d := segment_audio command output_file run segments in
  Forall (cut_from segments) (sd_segments d)
  /\ StronglySorted lt (segment_index <$> sd_segments d)
  /\ total_segments d = length (sd_segments d)
  /\ (total_segments d <= length (filter positive segments))%nat
  /\ ((forall j cmd path, run j cmd path = true) ->
      total_segments d = length (filter positive segments)).
Proof.
  cbn zeta. unfold segment_audio. simpl.
  destruct (cut_loop_pieces command output_file run (lit "segment_") segments)
    as (H1 & H2 & H3 & H4).
  by split_and!.
Qed.

Lemma segment_audio_pieces_witness :
  total_segments
    (segment_audio (fun _ _ _ => []) (fun name => name) (fun _ _ _ => true)
       [ {| cs_start_time := Some 1%Q; cs_end_time := Some 3%Q; cs_name := None |};
         {| cs_start_time := Some 5%Q; cs_end_time := Some 5%Q; cs_name := None |};
         {| cs_start_time := None; cs_end_time := Some 2%Q; cs_name := None |} ])
  = 2%nat.
Proof.
  rewrite (proj2 (proj2 (proj2 (proj2 (segment_audio_pieces
    (fun _ _ _ => []) (fun name => name) (fun _ _ _ => true) _))))) by done.
  reflexivity.
Defined.

(** X15.  The clips [clip_video] reports are cut from segments that end after
    they start, in the order of the segments; [total_clips] counts them;
    the total duration is not negative, and positive as soon as there is a
    clip. *)
Theorem clip_video_clips (command : str -> Q -> Q -> list str)
    (output_file : str -> str) (run : nat -> list str -> str -> bool)
    (segments : list ClipSegment) :
  let d := clip_video command output_file run segments in
  Forall (cut_from segments) (clips d)
  /\ StronglySorted lt (segment_index <$> clips d)
  /\ total_clips d = length (clips d)
  /\ (0 <= clips_total_duration d)%Q
  /\ (clips d <> [] -> 0 < clips_total_duration d)%Q.
Proof.
  cbn zeta. unfold clip_video. simpl.
  destruct (cut_loop_pieces command output_file run (lit "clip_") segments)
    as (H1 & H2 & _).
  assert (Hpos : Forall (fun p => (0 < p_duration p)%Q)
                   (cut_loop command output_file run (lit "clip_") 0 segments [])).
  { eapply Forall_impl; [exact H1|]. intros p (s & _ & _ & _ & Hlt & ->). lra. }
  destruct (sum_durations _ 0%Q Hpos) as [Hge Hgt].
  by split_and!.
Qed.


(** ** Fusion followed by the speaker filter *)

Section FusedFilter.
Variable segs : speaker_segments.

(** The speakers a fused transcript can carry. *)
Local Abbreviation labels := (list_to_set (C := gset str) (default_speaker :: segs.*1)).

Lemma find_speaker_label (start_time end_time : Q) :
  _find_speaker_for_time start_time end_time segs ∈ labels.
Proof.
  unfold _find_speaker_for_time.
  destruct (speaker_loop start_time end_time segs (0%Q, default_speaker))
    as [m' b'] eqn:E. simpl snd.
  apply elem_of_list_to_set.
  destruct (speaker_loop_spec _ _ _ _ _ _ _ E)
    as [[_ [= _ ->]] | (i1 & sg & i2 & -> & _)]; [left | right].
  rewrite fmap_app, fmap_cons, elem_of_app. right. left.
Qed.

Lemma deref_elem (h : gmap nat Sentence) (refs : list nat) (s : Sentence) :
  s ∈ deref h refs -> exists l, l ∈ refs /\ h !! l = Some s.
Proof.
  unfold deref. intros Hs. apply list_elem_of_omap in Hs as (l & Hl & Hs).
  by exists l.
Qed.

(** X16.  A transcript that went through [combine_with_asr] passes whole through
    [filter_by_speaker] when the wanted speakers are the keys of the
    diarization result together with ["spk0"]: the filter succeeds,
    keeps every sentence in its place, and reports as many sentences
    filtered as given.  No sentence leaves fusion with a speaker outside
    that set, whatever speaker it carried before. *)
Theorem fused_transcript_filter (h h' : gmap nat Sentence) (refs out : list nat) :
  combine_with_asr h refs segs = Some (h', out) ->
  Forall (fun s => speaker s ∈ labels) (deref h' out)
  /\ exists d,
       filter_by_speaker (deref h' out) labels = succeed d
       /\ fd_sentences d = deref h' out
       /\ filtered_count d = original_count d
       /\ original_count d = length refs.
Proof.
  intros Hrun. unfold combine_with_asr in Hrun.
  pose proof (combine_loop_alloc _ _ _ _ _ Hrun) as Halloc.
  destruct (combine_loop_spec segs refs h [] Halloc) as (h1 & Hrun1 & Hout & Hin).
  rewrite app_nil_l in Hrun1. rewrite Hrun in Hrun1. injection Hrun1 as <- ->.
  assert (Hall : forall s, s ∈ deref h' refs -> speaker s ∈ labels).
  { intros s Hs. apply deref_elem in Hs as (l & Hl & Hs).
    destruct (Halloc l Hl) as [s0 Hs0].
    rewrite (Hin l s0 Hl Hs0) in Hs. injection Hs as <-.
    apply find_speaker_label. }
  split; [by apply Forall_forall|].
  unfold filter_by_speaker.
  rewrite bool_decide_eq_false_2.
  2:{ intros Hempty. apply (not_elem_of_empty (C := gset str) default_speaker).
      rewrite <- Hempty. apply elem_of_list_to_set. left. }
  rewrite filter_loop_filter, app_nil_l, (filter_keeps_all _ _ Hall).
  eexists. split; [reflexivity|]. cbn [fd_sentences filtered_count original_count].
  split_and!; try done.
  rewrite (deref_label segs h h' refs Halloc Hin), length_fmap.
  unfold deref. clear -Halloc. induction refs as [|l rest IH]; [done|].
  simpl. destruct (Halloc l) as [s Hs]; [left|]. rewrite Hs. simpl. f_equal.
  apply IH. intros l' Hl'. apply Halloc. by right.
Qed.

End FusedFilter.

Lemma fused_transcript_filter_witness :
  exists h' out,
    combine_with_asr instant_store [0%nat] only_spk0 = Some (h', out)
    /\ Forall (fun s => speaker s
                        ∈ list_to_set (C := gset str) (default_speaker :: only_spk0.*1))
         (deref h' out).
Proof.
  destruct (combine_with_asr instant_store [0%nat] only_spk0) as [[h' out]|] eqn:E;
    [|by vm_compute in E].
  exists h', out. split; [done|].
  exact (proj1 (fused_transcript_filter only_spk0 instant_store h' [0%nat] out E)).
Defined.
